(** * Lumi voice-chat relay: the conversation pipeline and its gateway

    A shallow embedding of the backend's turn pipeline
    ([services/conversation.ts], [services/gemini.ts], [services/stt.ts],
    the Redis chat-log helpers and the Pinecone helpers) and of the
    WebSocket gateway that drives it, followed by the properties of the
    specification checked against that embedding.

    Conventions of the embedding.
    - A JavaScript string is a Rocq [string]; its characters are the code
      units below 256.  Only ['.'], white space and concatenation are ever
      inspected by the code.
    - A [Buffer] is a list of bytes.
    - An awaited collaborator (speech recognition, text generation, text
      embedding, speech synthesis, Redis, Pinecone) is an oracle of the
      environment [Env]: it tells how the promise settles.  Every call made
      to a collaborator is appended to a trace, so that "is invoked with"
      and "is never invoked" are statements about that trace.
    - [async] functions that thread the session map, the chat log and the
      trace, and that may throw, live in the monad [M].  Every promise is
      taken to settle; the time it takes is kept for the one call the
      code sets a timer on, the text generation.
    - The branches of a [Promise.all] run one after the other, in the
      order in which the code starts them, and the storage the code
      leaves running in the background runs where it is started. *)

From Stdlib Require Import String Ascii ZArith QArith Qround List Lia.
From stdpp Require Import base option list gmap strings.

Close Scope Q_scope.
Open Scope string_scope.
Open Scope list_scope.
Open Scope nat_scope.

(** ** JavaScript values and string operations used by the code *)

Module Js.

Definition Buffer := list Byte.byte.

(** [number[]]: the entries of an embedding are never inspected. *)
Definition vector := list Q.

(** A thrown value.  [instanceofError] answers [error instanceof Error],
    [code] is the [code] property when the value has one (['code' in
    error]), [message] its [message] property (empty when absent). *)
Record Thrown := mkThrown {
  instanceofError : bool;
  code : option Z;
  message : string
}.

(** [new Error(msg)] *)
Definition Error (msg : string) : Thrown :=
  {| instanceofError := true; code := None; message := msg |}.

(** How a promise settles. *)
Inductive Settled (A : Type) : Type :=
| Fulfilled (a : A)
| RejectedWith (e : Thrown).
Arguments Fulfilled {A} a.
Arguments RejectedWith {A} e.

(** WhiteSpace and LineTerminator code units below 256. *)
Definition isWhiteSpace (a : ascii) : bool :=
  let n := nat_of_ascii a in
  (n =? 9) || (n =? 10) || (n =? 11) || (n =? 12) || (n =? 13)
  || (n =? 32) || (n =? 160).

Fixpoint trimStart (s : string) : string :=
  match s with
  | EmptyString => EmptyString
  | String a s' => if isWhiteSpace a then trimStart s' else s
  end.

Fixpoint trimEnd (s : string) : string :=
  match s with
  | EmptyString => EmptyString
  | String a s' =>
      match trimEnd s' with
      | EmptyString => if isWhiteSpace a then EmptyString else String a EmptyString
      | t => String a t
      end
  end.

(** [s.trim()] *)
Definition trim (s : string) : string := trimEnd (trimStart s).

(** [s.includes(c)] for a one-character needle. *)
Fixpoint includes (c : ascii) (s : string) : bool :=
  match s with
  | EmptyString => false
  | String a s' => if Ascii.eqb a c then true else includes c s'
  end.

(** [s.split(c)] for a one-character separator. *)
Fixpoint split (c : ascii) (s : string) : list string :=
  match s with
  | EmptyString => [EmptyString]
  | String a s' =>
      if Ascii.eqb a c then EmptyString :: split c s'
      else match split c s' with
           | x :: rest => String a x :: rest
           | [] => [String a EmptyString]
           end
  end.

(** [arr[0]] inside a string concatenation: a missing element prints as
    [undefined]. *)
Definition first (l : list string) : string :=
  match l with
  | x :: _ => x
  | [] => "undefined"
  end.

(** [arr.join(sep)] *)
Definition join (sep : string) (l : list string) : string := String.concat sep l.

(** [arr.slice(-n)]: the last [n] elements, the whole array when it is
    shorter. *)
Definition sliceLast {A} (n : nat) (l : list A) : list A :=
  drop (length l - n) l.

(** A string is falsy exactly when it is empty. *)
Definition truthy (s : string) : bool :=
  match s with EmptyString => false | _ => true end.

Definition newline : string := String (ascii_of_nat 10) EmptyString.

End Js.

(** ** services/gemini.ts *)

Module Gemini.
Import Js.

(** How [chat.sendMessage(fullPrompt)] settles, and after how many
    milliseconds. *)
Record SendOutcome := {
  settlesAfter : N;
  settlesAs : Settled string       (* [result.response.text()] *)
}.

(** The prompt is passed on and never inspected; its two non-ASCII
    punctuation marks are written ['] and [-] here. *)
Definition systemPrompt : string :=
  "You're an AI friend chatting naturally with the user-keep it friendly, match their tone, sound casual and human, and always end with a question to keep the conversation going; aim for a 8-10 second reply time, give or take. Ask a trailing question always.".

Definition fullPrompt (context : list string) (userMessage : string) : string :=
  let relevantContext := sliceLast 5 context in
  systemPrompt +:+ newline +:+ newline +:+ "Context: "
    +:+ join newline relevantContext
    +:+ newline +:+ newline +:+ "User: " +:+ userMessage.

Definition fallbackResponses : list string :=
  [ "I understand what you're saying.";
    "That's interesting, tell me more.";
    "I see your point.";
    "Thanks for sharing that with me.";
    "I'm listening." ].

(** [Math.floor(Math.random() * n)], [random] being the value of
    [Math.random()]. *)
Definition randomIndex (random : Q) (n : nat) : nat :=
  Z.to_nat (Qfloor (random * inject_Z (Z.of_nat n))).

(** The [if (response.includes('.'))] statement of [generateResponse]. *)
Definition firstSentence (response : string) : string :=
  if includes "." response then first (split "." response) +:+ "."
  else response.

(** The delay given to [setTimeout], in milliseconds. *)
Definition timeoutMs : N := 15000.

(** One activation of [generateResponse].  [controllerAborted] is the state of
    the [AbortController] when the function returns: the timer callback
    [controller.abort()] has run when the call settled at or after
    [timeoutMs].  The controller's signal is handed neither to
    [startChat] nor to [sendMessage], so [returned] does not read it. *)
Record Generation := {
  returnedAfter : N;
  controllerAborted : bool;
  returned : string
}.

(** Reading [fallbackResponses] past its end would give [undefined]; the
    index stays in range as long as [0 <= random < 1]. *)
Definition generateResponseRun (send : string -> SendOutcome) (random : Q)
    (context : list string) (userMessage : string) : Generation :=
  let out := send (fullPrompt context userMessage) in
  let aborted := (timeoutMs <=? settlesAfter out)%N in
  match settlesAs out with
  | Fulfilled text =>
      {| returnedAfter := settlesAfter out;
         controllerAborted := aborted;
         returned := firstSentence (trim text) |}
  | RejectedWith _ =>
      {| returnedAfter := settlesAfter out;
         controllerAborted := aborted;
         returned :=
           nth (randomIndex random (length fallbackResponses))
               fallbackResponses "undefined" |}
  end.

Definition generateResponse (send : string -> SendOutcome) (random : Q)
    (context : list string) (userMessage : string) : string :=
  returned (generateResponseRun send random context userMessage).

End Gemini.

(** ** The state threaded by the backend and the monad of its [async] code *)

Module Effects.
Import Js.

(** [services/conversation.ts]: [interface Session]. *)
Record Session := mkSession {
  userId : string;
  friendId : string;
  context : list string
}.

Inductive Role := user | ai.

Definition roleName (r : Role) : string :=
  match r with user => "user" | ai => "ai" end.

(** An element of the Redis list [chat:<userId>].  The code stores
    [JSON.stringify({ role, message })] and reads it back with
    [JSON.parse]; the embedding keeps the object itself. *)
Record ChatEntry := mkChat { role : Role; message : string }.

(** The text of a Pinecone match as the code reads it,
    [m.metadata?.text]: a metadata value or [undefined]. *)
Inductive MetadataValue :=
| MString (s : string)
| MNumber (q : Q)
| MBoolean (b : bool)
| MStrings (l : list string)
| MUndefined.

(** Calls made to the collaborators, in the order they are issued. *)
Inductive Call :=
| CallRecognize (audio : Buffer)
| CallRpush (key : string) (entry : ChatEntry)
| CallLtrim (key : string) (start stop : Z)
| CallLrange (key : string) (start stop : Z)
| CallEmbedContent (text : string)
| CallQuery (namespace : string) (queryVector : vector) (topK : nat)
| CallUpsert (namespace : string) (text : string) (values : vector)
| CallSendMessage (prompt : string)
| CallSynthesize (text : string).

(** The behaviour of the collaborators while one handler runs. *)
Record Env := mkEnv {
  recognize : Buffer -> Settled (option (list (option string)));
  rpushFails : string -> ChatEntry -> option Thrown;
  ltrimFails : string -> option Thrown;
  lrangeFails : string -> option Thrown;
  embedContent : string -> Settled vector;
  query : string -> vector -> Settled (option (list MetadataValue));
  upsertFails : string -> string -> vector -> option Thrown;
  chatSendMessage : string -> Gemini.SendOutcome;
  random : Q;
  synthesize : string -> Settled Buffer
}.

(** [sessions] is the module-level [Map<string, Session>] of
    [conversation.ts]; [chats] the Redis lists; [trace] the calls made so
    far. *)
Record World := mkWorld {
  sessions : gmap string Session;
  chats : gmap string (list ChatEntry);
  trace : list Call
}.

Definition emptyWorld : World :=
  {| sessions := ∅; chats := ∅; trace := [] |}.

Inductive Completion (A : Type) : Type :=
| Returns (a : A)
| Throws (e : Thrown).
Arguments Returns {A} a.
Arguments Throws {A} e.

Definition M (A : Type) : Type := World -> Completion A * World.

Definition ret {A} (a : A) : M A := fun w => (Returns a, w).

Definition bind {A B} (m : M A) (k : A -> M B) : M B :=
  fun w =>
    match m w with
    | (Returns a, w') => k a w'
    | (Throws e, w') => (Throws e, w')
    end.

Definition throw {A} (e : Thrown) : M A := fun w => (Throws e, w).

(** [try { body } catch (error) { handler }] *)
Definition tryCatch {A} (body : M A) (handler : Thrown -> M A) : M A :=
  fun w =>
    match body w with
    | (Returns a, w') => (Returns a, w')
    | (Throws e, w') => handler e w'
    end.

Definition getWorld : M World := fun w => (Returns w, w).

Definition record (c : Call) : M unit :=
  fun w => (Returns tt,
            {| sessions := sessions w; chats := chats w; trace := trace w ++ [c] |}).

Definition setSessions (s : gmap string Session) : M unit :=
  fun w => (Returns tt, {| sessions := s; chats := chats w; trace := trace w |}).

Definition setChats (c : gmap string (list ChatEntry)) : M unit :=
  fun w => (Returns tt, {| sessions := sessions w; chats := c; trace := trace w |}).

(** Awaiting a promise. *)
Definition await {A} (p : Settled A) : M A :=
  match p with
  | Fulfilled a => ret a
  | RejectedWith e => throw e
  end.

Definition failWhen (f : option Thrown) : M unit :=
  match f with
  | None => ret tt
  | Some e => throw e
  end.

End Effects.

Notation "x <- m ;; k" := (Effects.bind m (fun x => k))
  (at level 100, m at level 99, k at level 200, right associativity).
Notation "m ;;; k" := (Effects.bind m (fun _ => k))
  (at level 100, k at level 200, right associativity).

(** ** utils/redis.util.ts: the short-term chat log *)

Module Redis.
Import Js Effects.

(** The elements of a list selected by the inclusive range
    [start .. stop] of LRANGE and LTRIM; a negative index counts from
    the end. *)
Definition range {A} (l : list A) (start stop : Z) : list A :=
  let len := Z.of_nat (length l) in
  let s := if (start <? 0)%Z then Z.max (len + start) 0 else start in
  let e := if (stop <? 0)%Z then (len + stop)%Z else Z.min stop (len - 1) in
  if (e <? s)%Z then []
  else take (Z.to_nat (e - s + 1)) (drop (Z.to_nat s) l).

Definition listAt (key : string) (w : World) : list ChatEntry :=
  default [] (chats w !! key).

Definition rpush (env : Env) (key : string) (entry : ChatEntry) : M unit :=
  record (CallRpush key entry) ;;;
  failWhen (rpushFails env key entry) ;;;
  w <- getWorld ;;
  setChats (<[key := listAt key w ++ [entry]]> (chats w)).

Definition ltrim (env : Env) (key : string) (start stop : Z) : M unit :=
  record (CallLtrim key start stop) ;;;
  failWhen (ltrimFails env key) ;;;
  w <- getWorld ;;
  match chats w !! key with
  | Some l => setChats (<[key := range l start stop]> (chats w))
  | None => ret tt
  end.

Definition lrange (env : Env) (key : string) (start stop : Z)
    : M (list ChatEntry) :=
  record (CallLrange key start stop) ;;;
  failWhen (lrangeFails env key) ;;;
  w <- getWorld ;;
  ret (range (listAt key w) start stop).

Definition pushChat (env : Env) (userId : string) (r : Role) (message : string)
    : M unit :=
  rpush env ("chat:" +:+ userId) {| role := r; message := message |} ;;;
  ltrim env ("chat:" +:+ userId) (-100) (-1).

Definition getRecentChats (env : Env) (userId : string) : M (list ChatEntry) :=
  lrange env ("chat:" +:+ userId) 0 (-1).

End Redis.

(** ** services/stt.ts, services/tts.ts, services/pinecone.ts *)

Module Stt.
Import Js Effects.

Definition minimumBytes : nat := 1000.

(** A [Buffer] is never falsy: [!audioBuffer || audioBuffer.length === 0]
    is the test on the length. *)
Definition transcribeAudio (env : Env) (audioBuffer : Buffer) : M string :=
  tryCatch
    (if length audioBuffer =? 0 then throw (Error "Audio buffer is empty")
     else if length audioBuffer <? minimumBytes then ret ""
     else
       record (CallRecognize audioBuffer) ;;;
       response <- await (recognize env audioBuffer) ;;
       match response with
       | None | Some [] => ret ""
       | Some results =>
           ret (trim (join " "
                  (map (fun r =>
                          match r with
                          | Some t => if truthy t then t else ""
                          | None => ""
                          end) results)))
       end)
    (fun error =>
       match code error with
       | Some c =>
           if (c =? 16)%Z then
             throw (Error "Google Cloud authentication failed. Check your credentials.")
           else if (c =? 3)%Z then
             throw (Error "Invalid audio format or configuration.")
           else if (c =? 8)%Z then
             throw (Error "Google Cloud quota exceeded.")
           else
             throw (Error ("Google Cloud error: " +:+
                           (if truthy (Js.message error) then Js.message error
                            else "Unknown error")))
       | None => throw (Error "Failed to transcribe audio")
       end).

End Stt.

Module Tts.
Import Js Effects.

Definition synthesizeSpeech (env : Env) (text : string) : M Buffer :=
  record (CallSynthesize text) ;;;
  await (synthesize env text).

End Tts.

Module Pinecone.
Import Js Effects.

(** The record id [mem-<Date.now()>] is left out. *)
Definition storeVector (env : Env) (userId text : string) (v : vector) : M unit :=
  record (CallUpsert userId text v) ;;;
  failWhen (upsertFails env userId text v).

Definition searchMemory (env : Env) (userId : string) (v : vector)
    : M (list MetadataValue) :=
  record (CallQuery userId v 5) ;;;
  res <- await (query env userId v) ;;
  ret (default [] res).

End Pinecone.

(** The parts of [services/gemini.ts] that run in [M]. *)

Module GeminiM.
Import Js Effects.

Definition generateResponse (env : Env) (context : list string)
    (userMessage : string) : M string :=
  record (CallSendMessage (Gemini.fullPrompt context userMessage)) ;;;
  ret (Gemini.generateResponse (chatSendMessage env) (random env)
         context userMessage).

Definition getEmbedding (env : Env) (text : string) : M vector :=
  if negb (truthy text) || (String.length (trim text) =? 0) then ret []
  else
    tryCatch
      (record (CallEmbedContent (substring 0 1000 text)) ;;;
       await (embedContent env (substring 0 1000 text)))
      (fun _ => ret []).

End GeminiM.

(** ** services/conversation.ts: the session store and the turn pipeline

    A handler runs to completion in [M]: the points at which the real code
    awaits are not interleaved with other handlers here.  The interleaving
    that matters for the busy flag is modelled in [Gateway] below, where a
    turn has a start and a completion event. *)

Module Conversation.
Import Js Effects.

(** The object returned by [processCompleteAudio]; [error] is the
    optional property of that name. *)
Record TurnResult := mkResult {
  response : string;
  transcript : string;
  audioBuffer : option Buffer;
  error : option string
}.

Definition sessionKey (userId friendId : string) : string :=
  userId +:+ "-" +:+ friendId.

Definition formatChat (m : ChatEntry) : string :=
  roleName (role m) +:+ ": " +:+ message m.

Definition initializeSession (env : Env) (userId friendId : string) : M string :=
  let sessionId := sessionKey userId friendId in
  context <- tryCatch
               (recent <- Redis.getRecentChats env userId ;;
                ret (map formatChat recent))
               (fun _ => ret []) ;;
  w <- getWorld ;;
  setSessions (<[sessionId := {| userId := userId; friendId := friendId;
                                 context := context |}]> (sessions w)) ;;;
  ret sessionId.

(** [p.catch(() => null)] *)
Definition orNull {A} (p : M A) : M (option A) :=
  tryCatch (a <- p ;; ret (Some a)) (fun _ => ret None).

(** [p.catch(...)] with a handler that only logs. *)
Definition swallow (p : M unit) : M unit :=
  tryCatch p (fun _ => ret tt).

(** Reading a property of [undefined] throws a [TypeError]. *)
Definition TypeError : Thrown :=
  Error "Cannot read properties of undefined (reading 'context')".

Definition contextOf (session : option Session) : M (list string) :=
  match session with
  | Some s => ret (context s)
  | None => throw TypeError
  end.

(** [.filter((v): v is string => typeof v === "string")] *)
Fixpoint onlyStrings (l : list MetadataValue) : list string :=
  match l with
  | [] => []
  | MString s :: l' => s :: onlyStrings l'
  | _ :: l' => onlyStrings l'
  end.

Definition storeVectorsInBackground (env : Env) (userId userMessage aiResponse : string)
    (embedding : vector) : M unit :=
  (if 0 <? length embedding
   then swallow (Pinecone.storeVector env userId userMessage embedding)
   else ret tt) ;;;
  swallow (responseEmbedding <- GeminiM.getEmbedding env aiResponse ;;
           Pinecone.storeVector env userId aiResponse responseEmbedding).

Definition didntCatch : string :=
  "I didn't catch that. Could you please try again?".

Definition errorMessage : string :=
  "I'm having trouble processing your audio right now. Please try again.".

(** [session.context = ...]: [session] is the object stored under
    [sessionId]. *)
Definition assignContext (sessionId : string) (session : option Session)
    (c : list string) : M unit :=
  match session with
  | Some s =>
      w <- getWorld ;;
      setSessions (<[sessionId := {| userId := userId s; friendId := friendId s;
                                     context := c |}]> (sessions w))
  | None => throw TypeError
  end.

(** [!transcript || transcript.trim().length === 0] *)
Definition noTranscript (transcript : string) : bool :=
  negb (truthy transcript) || (String.length (trim transcript) =? 0).

(** Step 4: [enhancedContext]. *)
Definition enhance (sessionContext : list string)
    (longTermMemory : list MetadataValue) (transcript : string) : list string :=
  onlyStrings (map MString sessionContext ++ longTermMemory
               ++ [MString ("user: " +:+ transcript)]).

(** Step 7: the value assigned to [session.context]. *)
Definition updatedContext (sessionContext : list string)
    (transcript aiResponse : string) : list string :=
  sliceLast 10 (sessionContext
                ++ ["user: " +:+ transcript; "ai: " +:+ aiResponse]).

(** [sessions.get(sessionId)], after [initializeSession] when the first
    lookup finds nothing. *)
Definition lookupOrInitialize (env : Env) (userId friendId : string)
    : M (option Session) :=
  let sessionId := sessionKey userId friendId in
  w0 <- getWorld ;;
  match sessions w0 !! sessionId with
  | Some s => ret (Some s)
  | None =>
      initializeSession env userId friendId ;;;
      w1 <- getWorld ;;
      ret (sessions w1 !! sessionId)
  end.

(** The [try] block of [processCompleteAudio]. *)
Definition turn (env : Env) (audioBuffer : Buffer) (userId sessionId : string)
    (session : option Session) : M TurnResult :=
  (* Step 1 *)
  transcript <- Stt.transcribeAudio env audioBuffer ;;
  if noTranscript transcript then
    audio <- orNull (Tts.synthesizeSpeech env didntCatch) ;;
    ret {| response := didntCatch; transcript := "";
           audioBuffer := audio; error := None |}
  else
    (* Step 2 *)
    Redis.pushChat env userId user transcript ;;;
    (* Step 3 *)
    embedding <- tryCatch (GeminiM.getEmbedding env transcript)
                          (fun _ => ret []) ;;
    longTermMemory <- tryCatch (Pinecone.searchMemory env userId [])
                               (fun _ => ret []) ;;
    (* Step 4 *)
    sessionContext <- contextOf session ;;
    let enhancedContext := enhance sessionContext longTermMemory transcript in
    (* Step 5 *)
    aiResponse <- GeminiM.generateResponse env enhancedContext transcript ;;
    (* Step 6 *)
    audioResponseBuffer <- orNull (Tts.synthesizeSpeech env aiResponse) ;;
    swallow (Redis.pushChat env userId ai aiResponse) ;;;
    storeVectorsInBackground env userId transcript aiResponse embedding ;;;
    (* Step 7 *)
    assignContext sessionId session
      (updatedContext sessionContext transcript aiResponse) ;;;
    ret {| response := aiResponse; transcript := transcript;
           audioBuffer := audioResponseBuffer; error := None |}.

(** The [catch] block of [processCompleteAudio]. *)
Definition turnFailed (env : Env) (e : Thrown) : M TurnResult :=
  audio <- orNull (Tts.synthesizeSpeech env errorMessage) ;;
  ret {| response := errorMessage; transcript := "";
         audioBuffer := audio;
         error := Some (if instanceofError e then Js.message e
                        else "Unknown error") |}.

Definition processCompleteAudio (env : Env) (audioBuffer : Buffer)
    (userId friendId : string) : M TurnResult :=
  let sessionId := sessionKey userId friendId in
  session <- lookupOrInitialize env userId friendId ;;
  tryCatch (turn env audioBuffer userId sessionId session) (turnFailed env).

Definition cleanupSession (userId friendId : string) : M unit :=
  w <- getWorld ;;
  setSessions (delete (sessionKey userId friendId) (sessions w)).

End Conversation.

(** ** The WebSocket gateway

    [ClientSession] objects live in a heap and are named by their
    address: the gateway's [Map<WebSocket, ClientSession>] maps a socket
    to an address, and a suspended [handleCompleteAudio] keeps the address
    of the object it read before awaiting, as the closure does.  A turn is
    in flight between the event that starts it ([Receive] of an [audio]
    message that reaches [processCompleteAudio]) and the event that
    resumes the handler ([Complete]); the pipeline's effect on the
    orchestrator is applied at that second event.  [handleInit] runs in
    one piece, and [ws.send] is taken not to throw on an open socket. *)

Module Gateway.
Import Js Effects.

Record ClientSession := mkClient {
  userId : string;
  friendId : string;
  sessionId : option string;
  isProcessing : bool
}.

(** A decoded inbound frame.  [data] of an [audio] message is the result
    of [Buffer.from(message.data, 'base64')], [None] when that call
    throws because [data] is not a string. *)
Inductive Message :=
| InitMessage (userId friendId : string)
| AudioMessage (data : option Buffer)
| OtherMessage (type : string).

Inductive Inbound :=
| Malformed (e : Thrown)          (* decoding or [JSON.parse] throws *)
| Parsed (m : Message).

(** Outbound frames; [audioBuffer] of a response stands for its base64
    text. *)
Inductive Frame :=
| ErrorResponse (message : string) (details : option string) (timestamp : Z)
| ReadyResponse (message : string) (sessionId : option string)
| ProcessingResponse (message : string)
| FinalResponse (text transcript : string) (audioBuffer : option Buffer)
                (timestamp : Z).

(** A suspended activation of [handleCompleteAudio]: the socket, the
    address of the [session] object it holds, and the arguments it gave
    to [processCompleteAudio]. *)
Record Turn := mkTurn {
  socket : nat;
  session : nat;
  audio : Buffer;
  turnUserId : string;
  turnFriendId : string
}.

Record State := mkState {
  heap : list ClientSession;
  clients : gmap nat nat;
  openSockets : gset nat;             (* [ws.readyState === WebSocket.OPEN] *)
  sent : list (nat * Frame);          (* frames written, oldest first *)
  inflight : list Turn;
  world : World
}.

Definition initial : State :=
  {| heap := []; clients := ∅; openSockets := ∅; sent := [];
     inflight := []; world := emptyWorld |}.

Definition sendMessage (st : State) (ws : nat) (message : Frame) : State :=
  if decide (ws ∈ openSockets st) then
    {| heap := heap st; clients := clients st; openSockets := openSockets st;
       sent := sent st ++ [(ws, message)];
       inflight := inflight st; world := world st |}
  else st.

Definition withWorld (st : State) (w : World) : State :=
  {| heap := heap st; clients := clients st; openSockets := openSockets st;
     sent := sent st; inflight := inflight st; world := w |}.

(** [session.isProcessing = b] on the object at address [o]. *)
Definition setProcessing (st : State) (o : nat) (b : bool) : State :=
  match heap st !! o with
  | Some s =>
      {| heap := <[o := {| userId := userId s; friendId := friendId s;
                           sessionId := sessionId s; isProcessing := b |}]> (heap st);
         clients := clients st; openSockets := openSockets st;
         sent := sent st; inflight := inflight st; world := world st |}
  | None => st
  end.

(** [sessions.get(ws)]: the object the socket is mapped to, with its
    address. *)
Definition sessionOf (st : State) (ws : nat) : option (nat * ClientSession) :=
  match clients st !! ws with
  | Some o =>
      match heap st !! o with
      | Some s => Some (o, s)
      | None => None
      end
  | None => None
  end.

Definition details (e : Thrown) : string :=
  if instanceofError e then Js.message e else "Unknown error".

Definition handleInit (env : Env) (now : Z) (st : State) (ws : nat)
    (userId friendId : string) : State :=
  if negb (truthy userId) || negb (truthy friendId) then
    sendMessage st ws (ErrorResponse "userId and friendId are required" None now)
  else
    match Conversation.initializeSession env userId friendId (world st) with
    | (Returns sessionId, w) =>
        let st1 :=
          {| heap := heap st ++ [{| userId := userId; friendId := friendId;
                                    sessionId := Some sessionId;
                                    isProcessing := false |}];
             clients := <[ws := length (heap st)]> (clients st);
             openSockets := openSockets st; sent := sent st;
             inflight := inflight st; world := w |} in
        sendMessage st1 ws
          (ReadyResponse "Session initialized and ready to process audio"
                         (Some sessionId))
    | (Throws e, w) =>
        sendMessage (withWorld st w) ws
          (ErrorResponse "Failed to initialize session" (Some (details e)) now)
    end.

(** What [Buffer.from(undefined, 'base64')] throws. *)
Definition bufferFromError : Thrown :=
  Error "The first argument must be of type string or an instance of Buffer, ArrayBuffer, or Array or an Array-like Object. Received undefined".

(** [handleCompleteAudio] up to its [await]. *)
Definition handleCompleteAudioStart (now : Z) (st : State) (ws : nat)
    (data : option Buffer) : State :=
  match sessionOf st ws with
  | None =>
      sendMessage st ws
        (ErrorResponse "Session not initialized. Please send init message first."
                       None now)
  | Some (o, session) =>
      if isProcessing session then
        sendMessage st ws
          (ErrorResponse
             "Already processing audio. Please wait for current request to complete."
             None now)
      else
        let st1 := setProcessing st o true in
        let st2 := sendMessage st1 ws (ProcessingResponse "Processing your audio...") in
        match data with
        | Some audioBuffer =>
            {| heap := heap st2; clients := clients st2;
               openSockets := openSockets st2; sent := sent st2;
               inflight := inflight st2 ++
                 [{| socket := ws; session := o; audio := audioBuffer;
                     turnUserId := userId session;
                     turnFriendId := friendId session |}];
               world := world st2 |}
        | None =>
            (* catch, then finally *)
            setProcessing
              (sendMessage st2 ws
                 (ErrorResponse "Failed to process audio"
                                (Some (details bufferFromError)) now))
              o false
        end
  end.

Definition truthyError (e : option string) : option string :=
  match e with
  | Some d => if truthy d then Some d else None
  | None => None
  end.

Section Pipeline.

(** The turn-processing entry point awaited by the gateway. *)
Variable pipeline : Env -> Buffer -> string -> string -> M Conversation.TurnResult.

(** [handleCompleteAudio] from the moment the awaited promise of the
    [i]-th turn in flight settles: the rest of the [try] block, the
    [catch] block, and [finally]. *)
Definition handleCompleteAudioResume (env : Env) (now : Z) (st : State)
    (i : nat) : State :=
  match inflight st !! i with
  | None => st
  | Some t =>
      let st0 :=
        {| heap := heap st; clients := clients st;
           openSockets := openSockets st; sent := sent st;
           inflight := delete i (inflight st); world := world st |} in
      match pipeline env (audio t) (turnUserId t) (turnFriendId t) (world st0) with
      | (Returns result, w) =>
          let st1 := withWorld st0 w in
          let st2 :=
            match truthyError (Conversation.error result) with
            | Some d =>
                sendMessage st1 (socket t)
                  (ErrorResponse "Audio processing failed" (Some d) now)
            | None =>
                sendMessage st1 (socket t)
                  (FinalResponse (Conversation.response result)
                                 (Conversation.transcript result)
                                 (Conversation.audioBuffer result) now)
            end in
          setProcessing st2 (session t) false
      | (Throws e, w) =>
          setProcessing
            (sendMessage (withWorld st0 w) (socket t)
               (ErrorResponse "Failed to process audio" (Some (details e)) now))
            (session t) false
      end
  end.

Definition handleDisconnection (st : State) (ws : nat) : State :=
  let w :=
    match sessionOf st ws with
    | Some (_, s) => snd (Conversation.cleanupSession (userId s) (friendId s) (world st))
    | None => world st
    end in
  {| heap := heap st; clients := delete ws (clients st);
     openSockets := openSockets st ∖ {[ws]}; sent := sent st;
     inflight := inflight st; world := w |}.

Inductive Event :=
| Connect (ws : nat)
| Receive (ws : nat) (frame : Inbound) (now : Z) (env : Env)
| Complete (i : nat) (now : Z) (env : Env)
| Close (ws : nat).

Definition step (ev : Event) (st : State) : State :=
  match ev with
  | Connect ws =>
      {| heap := heap st; clients := clients st;
         openSockets := openSockets st ∪ {[ws]}; sent := sent st;
         inflight := inflight st; world := world st |}
  | Receive ws (Malformed e) now _ =>
      sendMessage st ws
        (ErrorResponse "Invalid message format" (Some (details e)) now)
  | Receive ws (Parsed (InitMessage userId friendId)) now env =>
      handleInit env now st ws userId friendId
  | Receive ws (Parsed (AudioMessage data)) now _ =>
      handleCompleteAudioStart now st ws data
  | Receive ws (Parsed (OtherMessage _)) _ _ => st
  | Complete i now env => handleCompleteAudioResume env now st i
  | Close ws => handleDisconnection st ws
  end.

Definition run (evs : list Event) (st : State) : State :=
  fold_left (fun s ev => step ev s) evs st.

Inductive reachable : State -> Prop :=
| reachable_initial : reachable initial
| reachable_step ev st : reachable st -> reachable (step ev st).

End Pipeline.

(** [ev] is an [init] message on socket [ws] that carries both
    identifiers, the only event that gives [ws] a session. *)
Definition givesSession (ws : nat) (ev : Event) : bool :=
  match ev with
  | Receive ws' (Parsed (InitMessage userId friendId)) _ _ =>
      (ws' =? ws) && truthy userId && truthy friendId
  | _ => false
  end.

(** The busy flags tell which [ClientSession] objects are held by a
    turn in flight: no object is held by two turns, every turn holds an
    object of the heap, and an object is flagged exactly when a turn
    holds it. *)
Definition busyExactly (st : State) : Prop :=
  NoDup (session <$> inflight st)
  /\ (forall t, t ∈ inflight st -> session t < length (heap st))
  /\ (forall o s, heap st !! o = Some s ->
        (isProcessing s = true <-> o ∈ session <$> inflight st)).

(** Turns in flight that hold the [ClientSession] object at [o]. *)
Definition turnsOfObject (o : nat) (st : State) : nat :=
  length (List.filter (fun t => session t =? o) (inflight st)).

(** Turns in flight on a socket. *)
Definition turnsOfSocket (ws : nat) (st : State) : nat :=
  length (List.filter (fun t => socket t =? ws) (inflight st)).

(** Turns in flight for the [Session] of [conversation.ts] stored under
    [key]. *)
Definition turnsOfSession (key : string) (st : State) : nat :=
  length (List.filter
            (fun t => String.eqb (Conversation.sessionKey (turnUserId t) (turnFriendId t)) key)
            (inflight st)).

End Gateway.

(** ** The specification's wording of the reply normalisation *)

Module Spec.

(** "The substring up to and including the first [.]" when the string
    has a period, the string itself otherwise. *)
Definition upToFirstPeriod (s : string) : string :=
  match index 0 "." s with
  | Some i => substring 0 (S i) s
  | None => s
  end.

End Spec.

(** ** Invariants of computations in [M] *)

Module Logic.
Import Js Effects.

(** [m] never leaves the worlds satisfying [I]. *)
Definition maintains {A} (I : World -> Prop) (m : M A) : Prop :=
  forall w, I w -> I (snd (m w)).

(** [I] survives the recording of the call [c]. *)
Definition accepts (I : World -> Prop) (c : Call) : Prop :=
  forall w, I w ->
    I {| sessions := sessions w; chats := chats w; trace := trace w ++ [c] |}.

(** [I] does not look at the chat log. *)
Definition chatBlind (I : World -> Prop) : Prop :=
  forall w c, I w ->
    I {| sessions := sessions w; chats := c; trace := trace w |}.

(** [I] does not look at the session map. *)
Definition sessionBlind (I : World -> Prop) : Prop :=
  forall w s, I w ->
    I {| sessions := s; chats := chats w; trace := trace w |}.

(** The session map is [s]. *)
Definition sessionsAre (s : gmap string Session) : World -> Prop :=
  fun w => sessions w = s.

(** The trace is [base] followed by calls that all satisfy [ok]. *)
Definition extendsBy (ok : Call -> Prop) (base : list Call) : World -> Prop :=
  fun w => exists cs, trace w = base ++ cs /\ Forall ok cs.

(** [m] always returns. *)
Definition neverThrows {A} (m : M A) : Prop :=
  forall w, exists a, fst (m w) = Returns a.

(** The error [pushChat] ends with, if any: that of RPUSH, else that of
    LTRIM. *)
Definition pushChatFault (env : Env) (userId : string) (r : Role)
    (message : string) : option Thrown :=
  match rpushFails env ("chat:" +:+ userId) {| role := r; message := message |} with
  | Some e => Some e
  | None => ltrimFails env ("chat:" +:+ userId)
  end.

(** The context [initializeSession] computes for [userId] in world [w]:
    the user's whole chat log, one ["role: message"] string per
    entry, or nothing when the log cannot be read. *)
Definition seededContext (env : Env) (userId : string) (w : World) : list string :=
  match lrangeFails env ("chat:" +:+ userId) with
  | Some _ => []
  | None => map Conversation.formatChat (Redis.listAt ("chat:" +:+ userId) w)
  end.

(** The value of [longTermMemory] in a turn of [userId]: what
    [searchMemory(userId, []).catch(() => [])] settles to. *)
Definition recall (env : Env) (userId : string) : list MetadataValue :=
  match query env userId [] with
  | Fulfilled res => default [] res
  | RejectedWith _ => []
  end.

(** A call to the memory store is a query in the namespace of
    [userId] with the empty vector. *)
Definition recallByUserOnly (userId : string) (c : Call) : Prop :=
  match c with
  | CallQuery namespace queryVector _ => namespace = userId /\ queryVector = []
  | _ => True
  end.

(** Turns of one user with one friend, one after the other, each in its
    own environment. *)
Fixpoint converse (turns : list (Env * Buffer)) (userId friendId : string)
    (w : World) : World :=
  match turns with
  | [] => w
  | (env, audioBuffer) :: rest =>
      converse rest userId friendId
        (snd (Conversation.processCompleteAudio env audioBuffer userId friendId w))
  end.

(** The reply of a turn of which [sessionContext] is the session's
    context and [transcript] the transcript. *)
Definition reply (env : Env) (userId : string) (sessionContext : list string)
    (transcript : string) : string :=
  Gemini.generateResponse (chatSendMessage env) (random env)
    (Conversation.enhance sessionContext (recall env userId) transcript)
    transcript.

End Logic.

(** ** Environments and inputs used in the examples *)

Module Sample.
Import Js Effects.

Definition clip (n : nat) : Buffer := repeat Byte.x00 n.

Definition speech : Buffer := [Byte.x4f; Byte.x67; Byte.x67; Byte.x53].

(** An environment in which the recogniser settles as [recognized],
    every Redis write fails with [redisWriteFault] when one is given,
    every Redis read with [redisReadFault], and the language model
    settles as [sent]. *)
Definition env (recognized : Settled (option (list (option string))))
    (redisWriteFault redisReadFault : option Thrown)
    (sent : Gemini.SendOutcome) : Env :=
  {| recognize := fun _ => recognized;
     rpushFails := fun _ _ => redisWriteFault;
     ltrimFails := fun _ => redisWriteFault;
     lrangeFails := fun _ => redisReadFault;
     embedContent := fun _ => Fulfilled [1 # 2; 1 # 4]%Q;
     query := fun _ _ => Fulfilled (Some [MString "likes tea"; MUndefined]);
     upsertFails := fun _ _ _ => None;
     chatSendMessage := fun _ => sent;
     random := (7 # 10)%Q;
     synthesize := fun _ => Fulfilled speech |}.

Definition heard (t : string) : Settled (option (list (option string))) :=
  Fulfilled (Some [Some t]).

Definition replies (ms : N) (text : string) : Gemini.SendOutcome :=
  {| Gemini.settlesAfter := ms; Gemini.settlesAs := Fulfilled text |}.

(** Everything works: the user says [t], the model answers [text]
    within a second. *)
Definition healthy (t text : string) : Env :=
  env (heard t) None None (replies 800 text).

End Sample.

(** ** More of the backend: session inspection, batch embeddings,
    streaming generation, cache keys and video polling *)

Module ConversationInfo.
Import Js Effects.

(** The object returned by [getSessionInfo]. *)
Record SessionInfo := mkInfo {
  infoSessionId : string;
  infoExists : bool;
  contextItems : nat
}.

(** [session?.context.length || 0] *)
Definition getSessionInfo (userId friendId : string) : M SessionInfo :=
  let sessionId := Conversation.sessionKey userId friendId in
  w <- getWorld ;;
  let session := sessions w !! sessionId in
  ret {| infoSessionId := sessionId;
         infoExists := match session with Some _ => true | None => false end;
         contextItems := match session with
                         | Some s => length (context s)
                         | None => 0
                         end |}.

(** The legacy entry point. *)
Definition handleAudioStream (env : Env) (audio : Buffer) (userId friendId : string)
    : M Conversation.TurnResult :=
  Conversation.processCompleteAudio env audio userId friendId.

End ConversationInfo.

Module RedisCache.

(** [`${prefix}:${id}`] *)
Definition getCacheKey (prefix id : string) : string :=
  prefix +:+ ":" +:+ id.

End RedisCache.

Module GeminiBatch.
Import Js Effects.

(** [Promise.all(items.map(f))]: the calls are started in order. *)
Fixpoint all {A B} (f : A -> M B) (items : list A) : M (list B) :=
  match items with
  | [] => ret []
  | x :: rest =>
      y <- f x ;;
      ys <- all f rest ;;
      ret (y :: ys)
  end.

Definition batchSize : nat := 3.

(** The [for] loop of [getBatchEmbeddings] from index [i] on, with
    [embeddings] what has been pushed so far.  [rounds] bounds the
    number of iterations left; the loop advances by [batchSize] at each
    one, so [length texts] rounds are more than it ever takes. *)
Fixpoint batches (rounds : nat) (env : Env) (texts : list string) (i : nat)
    (embeddings : list vector) : M (list vector) :=
  match rounds with
  | 0 => ret embeddings
  | S rounds' =>
      if i <? length texts then
        let batch := take batchSize (drop i texts) in     (* [texts.slice(i, i + batchSize)] *)
        batchResults <-
          tryCatch (all (GeminiM.getEmbedding env) batch)
                   (fun _ => ret (repeat [] (length batch))) ;;
        batches rounds' env texts (i + batchSize) (embeddings ++ batchResults)
      else ret embeddings
  end.

Definition getBatchEmbeddings (env : Env) (texts : list string) : M (list vector) :=
  batches (length texts) env texts 0 [].

End GeminiBatch.

Module GeminiStream.
Import Js.

Definition systemPrompt : string :=
  "You are a helpful friend engaging with the user. Provide concise, natural responses in exactly one sentence that sounds conversational and human-like. Be direct, friendly, and avoid technical jargon unless necessary.".

Definition fullPrompt (context : list string) (userMessage : string) : string :=
  let relevantContext := sliceLast 5 context in
  systemPrompt +:+ newline +:+ newline +:+ "Context: "
    +:+ join newline relevantContext
    +:+ newline +:+ newline +:+ "User: " +:+ userMessage.

Definition failureText : string :=
  "I'm having trouble processing that right now.".

(** The delay awaited after each chunk, in milliseconds. *)
Definition chunkDelayMs : N := 50.

(** [words.slice(0, i + 1).join(' ')] for every index [i] of [words]. *)
Definition chunksOf (words : list string) : list string :=
  map (fun i => join " " (take (S i) words)) (seq 0 (length words)).

(** One activation of [generateStreamingResponse]: the chunks handed to
    [onChunk], in order, the time after which the function returns and
    what it returns.  [onChunk] tells whether a callback was given; the
    callback is taken not to throw. *)
Record Streaming := {
  chunks : list string;
  streamedAfter : N;
  streamed : string
}.

Definition generateStreamingResponse (send : string -> Gemini.SendOutcome)
    (context : list string) (userMessage : string) (onChunk : bool) : Streaming :=
  let out := send (fullPrompt context userMessage) in
  match Gemini.settlesAs out with
  | Fulfilled text =>
      let response := trim text in
      let sentChunks := if onChunk then chunksOf (split " " response) else [] in
      {| chunks := sentChunks;
         streamedAfter :=
           (Gemini.settlesAfter out + chunkDelayMs * N.of_nat (length sentChunks))%N;
         streamed :=
           if includes "." response then first (split "." response) +:+ "."
           else response |}
  | RejectedWith _ =>
      {| chunks := []; streamedAfter := Gemini.settlesAfter out;
         streamed := failureText |}
  end.

End GeminiStream.

(** ** The video helper: waiting for a video *)

Module Heygen.
Import Js Effects.

(** [statusResponse.data.data] *)
Record VideoStatus := mkStatus {
  status : string;
  video_url : string;
  errorText : option string        (* [error?.message] *)
}.

Definition maxAttempts : nat := 60.
Definition pollInterval : N := 5000.

(** One activation of [pollVideoStatus]: the number of status requests
    made, the number of times the poll interval was awaited, and how the
    function settles. *)
Record Polling := {
  requests : nat;
  waits : nat;
  settled : Completion string
}.

Definition failedError (v : VideoStatus) : Thrown :=
  Error ("Video generation failed: " +:+
         match errorText v with
         | Some m => if truthy m then m else "Unknown error"
         | None => "Unknown error"
         end).

(** The [for] loop from [attempt] on, [remaining] being
    [maxAttempts - attempt].  [get attempt] is how the status request of
    that attempt settles; a response without the expected fields makes
    the [try] block throw like a rejected request. *)
Fixpoint pollFrom (get : nat -> Settled VideoStatus) (remaining attempt : nat)
    (requested waited : nat) : Polling :=
  match remaining with
  | 0 =>
      {| requests := requested; waits := waited;
         settled := Throws (Error "Video generation timed out") |}
  | S remaining' =>
      let caught (e : Thrown) :=
        if attempt =? maxAttempts - 1 then
          {| requests := S requested; waits := waited; settled := Throws e |}
        else pollFrom get remaining' (S attempt) (S requested) waited in
      match get attempt with
      | Fulfilled v =>
          if String.eqb (status v) "completed" then
            {| requests := S requested; waits := waited;
               settled := Returns (video_url v) |}
          else if String.eqb (status v) "failed" then caught (failedError v)
          else pollFrom get remaining' (S attempt) (S requested) (S waited)
      | RejectedWith e => caught e
      end
  end.

Definition pollVideoStatus (get : nat -> Settled VideoStatus) : Polling :=
  pollFrom get maxAttempts 0 0 0.

(** Attempt [k] does not report "completed": its request fails or its
    status is another one. *)
Definition goesOn (get : nat -> Settled VideoStatus) (k : nat) : Prop :=
  match get k with
  | Fulfilled v => String.eqb (status v) "completed" = false
  | RejectedWith _ => True
  end.

(** Attempt [k] reports a status that is neither "completed" nor
    "failed". *)
Definition pending (get : nat -> Settled VideoStatus) (k : nat) : Prop :=
  match get k with
  | Fulfilled v =>
      String.eqb (status v) "completed" = false
      /\ String.eqb (status v) "failed" = false
  | RejectedWith _ => False
  end.

End Heygen.

(** ** Summaries used in the statements about the chat log and strings *)

Module Summary.
Import Js Effects.

(** The chat log is [c]. *)
Definition chatsAre (c : gmap string (list ChatEntry)) : World -> Prop :=
  fun w => chats w = c.

(** The chat log [pushChat] leaves behind, from the log [c]: nothing
    changes when RPUSH fails, the entry is appended when RPUSH succeeds,
    and the list is cut to its last 100 entries when LTRIM succeeds
    too. *)
Definition pushed (env : Env) (userId : string) (r : Role) (message : string)
    (c : gmap string (list ChatEntry)) : gmap string (list ChatEntry) :=
  let key := "chat:" +:+ userId in
  let entry := {| role := r; message := message |} in
  match rpushFails env key entry with
  | Some _ => c
  | None =>
      let appended := default [] (c !! key) ++ [entry] in
      match ltrimFails env key with
      | Some _ => <[key := appended]> c
      | None => <[key := sliceLast 100 appended]> c
      end
  end.

(** What [getEmbedding] returns for [text]. *)
Definition embeddingOf (env : Env) (text : string) : vector :=
  if negb (truthy text) || (String.length (trim text) =? 0) then []
  else match embedContent env (substring 0 1000 text) with
       | Fulfilled v => v
       | RejectedWith _ => []
       end.

(** The string does not begin with white space. *)
Definition startsClean (s : string) : bool :=
  match s with
  | EmptyString => true
  | String a _ => negb (isWhiteSpace a)
  end.

(** The messages [transcribeAudio] throws with. *)
Definition transcriberMessages : list string :=
  [ "Google Cloud authentication failed. Check your credentials.";
    "Invalid audio format or configuration.";
    "Google Cloud quota exceeded.";
    "Failed to transcribe audio" ].

End Summary.

(** ** What a handler of the gateway writes *)

Module Wire.
Import Js Effects Gateway.

(** From [st] to [st'] at most [n] frames were written, all of them to
    sockets that are open in [st], and no socket was opened or closed. *)
Definition writes (n : nat) (st st' : State) : Prop :=
  openSockets st' = openSockets st
  /\ exists new,
       sent st' = sent st ++ new
       /\ length new <= n
       /\ Forall (fun p => fst p ∈ openSockets st) new.


End Wire.

(** * Properties *)

(** ** Strings *)

Section StringFacts.
Import Js.

Lemma append_cons a s t : String a s +:+ t = String a (s +:+ t).
Proof. reflexivity. Qed.

Lemma append_empty t : "" +:+ t = t.
Proof. reflexivity. Qed.

Lemma split_not_nil c s : split c s <> [].
Proof.
  destruct s as [|a s]; simpl; [discriminate|].
  destruct (Ascii.eqb a c); [discriminate|].
  destruct (split c s); discriminate.
Qed.

Lemma first_split_other c a s :
  Ascii.eqb a c = false ->
  first (split c (String a s)) = String a (first (split c s)).
Proof.
  intros Hne. simpl. rewrite Hne.
  destruct (split c s) as [|x rest] eqn:E; [|reflexivity].
  now apply split_not_nil in E.
Qed.

Lemma substring_0_0 s : substring 0 0 s = "".
Proof. destruct s; reflexivity. Qed.

Lemma index_period_cons a s :
  index 0 "." (String a s) =
    if Ascii.eqb a "." then Some 0
    else match index 0 "." s with Some n => Some (S n) | None => None end.
Proof.
  assert (P : String.prefix "." (String a s) = Ascii.eqb a ".").
  { unfold String.prefix. destruct (ascii_dec "." a) as [<-|Hne].
    - now destruct s.
    - destruct (Ascii.eqb_spec a "."); congruence. }
  cbn [index]. now rewrite P.
Qed.

(** The code's split-and-rejoin is the specification's "substring up to
    and including the first period". *)
Lemma firstSentence_upToFirstPeriod response :
  Gemini.firstSentence response = Spec.upToFirstPeriod response.
Proof.
  unfold Gemini.firstSentence, Spec.upToFirstPeriod.
  induction response as [|a s IH]; [reflexivity|].
  rewrite index_period_cons.
  cbn [includes].
  destruct (Ascii.eqb a ".") eqn:Ea.
  - apply Ascii.eqb_eq in Ea. subst a. cbn. now rewrite substring_0_0.
  - rewrite first_split_other by exact Ea.
    rewrite append_cons.
    destruct (includes "." s), (index 0 "." s) as [n|];
      cbn [substring]; congruence.
Qed.

Lemma includes_app c s t :
  includes c (s +:+ t) = includes c s || includes c t.
Proof.
  induction s as [|a s IH]; [reflexivity|].
  rewrite append_cons. cbn [includes].
  destruct (Ascii.eqb a c); [reflexivity | exact IH].
Qed.

(** [upToFirstPeriod] cuts after the first period ... *)
Lemma upToFirstPeriod_cut pre post :
  includes "." pre = false ->
  Spec.upToFirstPeriod (pre +:+ "." +:+ post) = pre +:+ ".".
Proof.
  rewrite <- firstSentence_upToFirstPeriod. unfold Gemini.firstSentence.
  rewrite includes_app, includes_app, orb_true_r. cbn [includes Ascii.eqb].
  induction pre as [|a pre IH]; intros Hpre.
  - reflexivity.
  - cbn [includes] in Hpre.
    destruct (Ascii.eqb a ".") eqn:Ea; [discriminate|].
    rewrite !append_cons, first_split_other, append_cons by exact Ea.
    f_equal. exact (IH Hpre).
Qed.

(** ... and leaves a string without period alone. *)
Lemma upToFirstPeriod_verbatim s :
  includes "." s = false -> Spec.upToFirstPeriod s = s.
Proof.
  intros H. rewrite <- firstSentence_upToFirstPeriod.
  unfold Gemini.firstSentence. now rewrite H.
Qed.

End StringFacts.

(** ** Rules for invariants of computations *)

Create HintDb steps.

Section Rules.
Import Js Effects Logic.

Context {I : World -> Prop}.

Lemma maintains_ret {A} (a : A) : maintains I (ret a).
Proof. intros w Hw. exact Hw. Qed.

Lemma maintains_throw {A} e : maintains I (@throw A e).
Proof. intros w Hw. exact Hw. Qed.

Lemma maintains_getWorld : maintains I getWorld.
Proof. intros w Hw. exact Hw. Qed.

Lemma maintains_bind {A B} (m : M A) (k : A -> M B) :
  maintains I m -> (forall a, maintains I (k a)) -> maintains I (bind m k).
Proof.
  intros Hm Hk w Hw. unfold bind. specialize (Hm w Hw).
  destruct (m w) as [[a|e] w']; cbn in *; [now apply Hk | exact Hm].
Qed.

Lemma maintains_tryCatch {A} (m : M A) (h : Thrown -> M A) :
  maintains I m -> (forall e, maintains I (h e)) -> maintains I (tryCatch m h).
Proof.
  intros Hm Hh w Hw. unfold tryCatch. specialize (Hm w Hw).
  destruct (m w) as [[a|e] w']; cbn in *; [exact Hm | now apply Hh].
Qed.

Lemma maintains_await {A} (p : Settled A) : maintains I (await p).
Proof. destruct p; intros w Hw; exact Hw. Qed.

Lemma maintains_failWhen f : maintains I (failWhen f).
Proof. destruct f; intros w Hw; exact Hw. Qed.

Lemma maintains_record c : accepts I c -> maintains I (record c).
Proof. intros Hc w Hw. now apply Hc. Qed.

Lemma maintains_setChats c : chatBlind I -> maintains I (setChats c).
Proof. intros Hb w Hw. now apply Hb. Qed.

Lemma maintains_setSessions s : sessionBlind I -> maintains I (setSessions s).
Proof. intros Hb w Hw. now apply Hb. Qed.

End Rules.

Section NeverThrows.
Import Js Effects Logic.

Lemma neverThrows_ret {A} (a : A) : neverThrows (ret a).
Proof. intros w. now exists a. Qed.

Lemma neverThrows_getWorld : neverThrows getWorld.
Proof. intros w. now exists w. Qed.

Lemma neverThrows_record c : neverThrows (record c).
Proof. intros w. now exists tt. Qed.

Lemma neverThrows_setChats c : neverThrows (setChats c).
Proof. intros w. now exists tt. Qed.

Lemma neverThrows_setSessions s : neverThrows (setSessions s).
Proof. intros w. now exists tt. Qed.

Lemma neverThrows_bind {A B} (m : M A) (k : A -> M B) :
  neverThrows m -> (forall a, neverThrows (k a)) -> neverThrows (bind m k).
Proof.
  intros Hm Hk w. unfold bind. destruct (Hm w) as [a Ha].
  destruct (m w) as [[a'|e] w']; cbn in Ha; [|discriminate].
  apply Hk.
Qed.

Lemma neverThrows_tryCatch {A} (m : M A) (h : Thrown -> M A) :
  (forall e, neverThrows (h e)) -> neverThrows (tryCatch m h).
Proof.
  intros Hh w. unfold tryCatch.
  destruct (m w) as [[a|e] w']; [now exists a | apply Hh].
Qed.

Lemma neverThrows_returns {A} (m : M A) w :
  neverThrows m -> exists a, m w = (Returns a, snd (m w)).
Proof.
  intros H. destruct (H w) as [a Ha]. exists a.
  destruct (m w) as [c w']; cbn in *. now subst.
Qed.

End NeverThrows.

(** [maintain] takes a goal [maintains I m] apart along the structure of
    [m]; [total] does the same for [neverThrows m]. *)

Ltac maintain :=
  repeat first
    [ apply maintains_ret
    | apply maintains_throw
    | apply maintains_getWorld
    | apply maintains_await
    | apply maintains_failWhen
    | apply maintains_bind; [|intros ?]
    | apply maintains_tryCatch; [|intros ?]
    | match goal with
      | |- Logic.maintains _ (match ?x with _ => _ end) => destruct x
      end ].

Ltac total :=
  repeat first
    [ apply neverThrows_ret
    | apply neverThrows_getWorld
    | apply neverThrows_record
    | apply neverThrows_setChats
    | apply neverThrows_setSessions
    | apply neverThrows_tryCatch; intros ?
    | apply neverThrows_bind; [|intros ?]
    | match goal with
      | |- Logic.neverThrows (match ?x with _ => _ end) => destruct x
      end ].

(** ** The steps of the pipeline, one by one *)

Section Steps.
Import Js Effects Logic Conversation.

Ltac close_with Hacc HC :=
  first [ apply maintains_record; apply Hacc
        | apply maintains_setChats; exact HC ].

Section AnyInvariant.

Variable I : World -> Prop.
Hypothesis Hacc : forall c, accepts I c.
Hypothesis HC : chatBlind I.

Lemma maintains_transcribeAudio env audioBuffer :
  maintains I (Stt.transcribeAudio env audioBuffer).
Proof. unfold Stt.transcribeAudio. maintain; close_with Hacc HC. Qed.

Lemma maintains_pushChat env userId r message :
  maintains I (Redis.pushChat env userId r message).
Proof.
  unfold Redis.pushChat, Redis.rpush, Redis.ltrim.
  maintain; close_with Hacc HC.
Qed.

Lemma maintains_getRecentChats env userId :
  maintains I (Redis.getRecentChats env userId).
Proof.
  unfold Redis.getRecentChats, Redis.lrange. maintain; close_with Hacc HC.
Qed.

Lemma maintains_getEmbedding env text :
  maintains I (GeminiM.getEmbedding env text).
Proof. unfold GeminiM.getEmbedding. maintain; close_with Hacc HC. Qed.

Lemma maintains_searchMemory env userId v :
  maintains I (Pinecone.searchMemory env userId v).
Proof. unfold Pinecone.searchMemory. maintain; close_with Hacc HC. Qed.

Lemma maintains_generateResponse env context userMessage :
  maintains I (GeminiM.generateResponse env context userMessage).
Proof. unfold GeminiM.generateResponse. maintain; close_with Hacc HC. Qed.

Lemma maintains_synthesizeSpeech env text :
  maintains I (Tts.synthesizeSpeech env text).
Proof. unfold Tts.synthesizeSpeech. maintain; close_with Hacc HC. Qed.

Lemma maintains_storeVector env userId text v :
  maintains I (Pinecone.storeVector env userId text v).
Proof. unfold Pinecone.storeVector. maintain; close_with Hacc HC. Qed.

Lemma maintains_storeVectorsInBackground env userId userMessage aiResponse embedding :
  maintains I (storeVectorsInBackground env userId userMessage aiResponse embedding).
Proof.
  unfold storeVectorsInBackground, swallow.
  maintain;
    first [ apply maintains_getEmbedding | close_with Hacc HC ].
Qed.

Lemma maintains_embedding env text :
  maintains I (tryCatch (GeminiM.getEmbedding env text) (fun _ => ret [])).
Proof.
  apply maintains_tryCatch; [apply maintains_getEmbedding|].
  intros _. apply maintains_ret.
Qed.

Lemma maintains_recall env userId v :
  maintains I (tryCatch (Pinecone.searchMemory env userId v) (fun _ => ret [])).
Proof.
  apply maintains_tryCatch; [apply maintains_searchMemory|].
  intros _. apply maintains_ret.
Qed.

Lemma maintains_orNull_synthesizeSpeech env text :
  maintains I (orNull (Tts.synthesizeSpeech env text)).
Proof.
  apply maintains_tryCatch; [|intros _; apply maintains_ret].
  apply maintains_bind; [apply maintains_synthesizeSpeech|].
  intros a. apply maintains_ret.
Qed.

Lemma maintains_swallow_pushChat env userId r message :
  maintains I (swallow (Redis.pushChat env userId r message)).
Proof.
  apply maintains_tryCatch; [apply maintains_pushChat|].
  intros _. apply maintains_ret.
Qed.

End AnyInvariant.

(** Steps that cannot throw. *)

Lemma neverThrows_orNull {A} (p : M A) : neverThrows (orNull p).
Proof. unfold orNull. total. Qed.

Lemma neverThrows_swallow p : neverThrows (swallow p).
Proof. unfold swallow. total. Qed.

Lemma neverThrows_getEmbedding env text :
  neverThrows (GeminiM.getEmbedding env text).
Proof. unfold GeminiM.getEmbedding. total. Qed.

Lemma neverThrows_generateResponse env context userMessage :
  neverThrows (GeminiM.generateResponse env context userMessage).
Proof. unfold GeminiM.generateResponse. total. Qed.

Lemma neverThrows_storeVectorsInBackground env userId userMessage aiResponse embedding :
  neverThrows (storeVectorsInBackground env userId userMessage aiResponse embedding).
Proof.
  unfold storeVectorsInBackground. total.
Qed.

Lemma neverThrows_initializeSession env userId friendId :
  neverThrows (initializeSession env userId friendId).
Proof. unfold initializeSession. total. Qed.

Lemma neverThrows_lookupOrInitialize env userId friendId :
  neverThrows (lookupOrInitialize env userId friendId).
Proof.
  unfold lookupOrInitialize. total.
Qed.

Lemma neverThrows_turnFailed env e : neverThrows (turnFailed env e).
Proof. unfold turnFailed. total. Qed.

(** [processCompleteAudio] always hands a result object back: the
    [catch] block of the gateway never runs on its behalf. *)
Lemma neverThrows_processCompleteAudio env audioBuffer userId friendId :
  neverThrows (processCompleteAudio env audioBuffer userId friendId).
Proof.
  unfold processCompleteAudio. total.
Qed.

End Steps.

#[global] Hint Resolve maintains_transcribeAudio maintains_pushChat
  maintains_getRecentChats maintains_getEmbedding maintains_searchMemory
  maintains_generateResponse maintains_synthesizeSpeech maintains_storeVector
  maintains_storeVectorsInBackground maintains_embedding maintains_recall
  maintains_orNull_synthesizeSpeech maintains_swallow_pushChat : steps.

(** ** What a turn returns and what it does to the session map *)

Section Turn.
Import Js Effects Logic Conversation.

Lemma bind_unfold {A B} (m : M A) (k : A -> M B) w :
  bind m k w =
    match m w with
    | (Returns a, w') => k a w'
    | (Throws e, w') => (Throws e, w')
    end.
Proof. reflexivity. Qed.

Lemma sessionsAre_accepts s c : accepts (sessionsAre s) c.
Proof. intros w Hw. exact Hw. Qed.

Lemma sessionsAre_chatBlind s : chatBlind (sessionsAre s).
Proof. intros w c Hw. exact Hw. Qed.

(** A step that maintains every invariant blind to the chat log and to
    the trace leaves the session map alone. *)
Lemma keeps_sessions {A} (m : M A) w :
  (forall I, (forall c, accepts I c) -> chatBlind I -> maintains I m) ->
  sessions (snd (m w)) = sessions w.
Proof.
  intros Hm.
  exact (Hm (sessionsAre (sessions w)) (sessionsAre_accepts _)
            (sessionsAre_chatBlind _) w eq_refl).
Qed.

(** From [E : m w = (c, w')], the fact [K : sessions w' = sessions w]. *)
Ltac keeps E K :=
  lazymatch type of E with
  | ?m ?w = _ =>
      let P := fresh in
      pose proof (keeps_sessions m w) as K;
      lazymatch type of K with
      | ?prem -> _ =>
          assert (P : prem) by (intros ? ? ?; eauto with steps);
          specialize (K P); clear P
      end;
      rewrite E in K; cbn [snd] in K
  end.

(** A call once recorded stays in the trace. *)
Lemma keeps_call {A} (m : M A) w c :
  (forall I, (forall c, accepts I c) -> chatBlind I -> maintains I m) ->
  In c (trace w) -> In c (trace (snd (m w))).
Proof.
  intros Hm. apply (Hm (fun w => In c (trace w))).
  - intros w0 c0 H. cbn. apply in_or_app. now left.
  - intros w0 c0 H. exact H.
Qed.

(** From [E : m w = (c, w')] and [Q : In call (trace w)], the fact
    [Q' : In call (trace w')]. *)
Ltac carry E Q Q' :=
  lazymatch type of E with
  | ?m ?w = _ =>
      lazymatch type of Q with
      | In ?call _ =>
          let P := fresh in
          pose proof (keeps_call m w call) as Q';
          lazymatch type of Q' with
          | ?prem -> _ =>
              assert (P : prem) by (intros ? ? ?; eauto with steps);
              specialize (Q' P Q); clear P
          end;
          rewrite E in Q'; cbn [snd] in Q'
      end
  end.

Lemma recall_records env userId w :
  In (CallQuery userId [] 5)
     (trace (snd (tryCatch (Pinecone.searchMemory env userId [])
                           (fun _ => ret []) w))).
Proof.
  unfold Pinecone.searchMemory, tryCatch, bind, record, await, ret, throw.
  cbn. destruct (query env userId []); cbn; apply in_or_app; right; now left.
Qed.

Lemma pushChat_outcome env userId r message w :
  fst (Redis.pushChat env userId r message w) =
    match pushChatFault env userId r message with
    | Some e => Throws e
    | None => Returns tt
    end.
Proof.
  unfold Redis.pushChat, Redis.rpush, Redis.ltrim, pushChatFault.
  unfold bind, record, failWhen, getWorld, setChats, ret, throw. cbn.
  destruct (rpushFails env _ _); cbn; [reflexivity|].
  destruct (ltrimFails env _); cbn; [reflexivity|].
  rewrite lookup_insert_eq. reflexivity.
Qed.

Lemma recall_outcome env userId w :
  fst (tryCatch (Pinecone.searchMemory env userId []) (fun _ => ret []) w)
  = Returns (recall env userId).
Proof.
  unfold Pinecone.searchMemory, recall, tryCatch, bind, record, await, ret, throw.
  cbn. destruct (query env userId []); reflexivity.
Qed.

Lemma generateResponse_outcome env context userMessage w :
  fst (GeminiM.generateResponse env context userMessage w) =
    Returns (Gemini.generateResponse (chatSendMessage env) (random env)
               context userMessage).
Proof. reflexivity. Qed.

Lemma transcribeAudio_any_world env audioBuffer w w' :
  fst (Stt.transcribeAudio env audioBuffer w)
  = fst (Stt.transcribeAudio env audioBuffer w').
Proof.
  unfold Stt.transcribeAudio, tryCatch, bind, record, await, ret, throw.
  destruct (length audioBuffer =? 0); [reflexivity|].
  destruct (length audioBuffer <? Stt.minimumBytes); [reflexivity|].
  cbn. destruct (recognize env audioBuffer) as [[[|r rs]|]|e]; try reflexivity.
  cbn. destruct (code e) as [c|]; [|reflexivity].
  destruct (c =? 16)%Z; [reflexivity|].
  destruct (c =? 3)%Z; [reflexivity|].
  destruct (c =? 8)%Z; reflexivity.
Qed.

(** Whatever [transcribeAudio] throws is an [Error] with a message. *)
Lemma transcribeAudio_throws_Error env audioBuffer w e :
  fst (Stt.transcribeAudio env audioBuffer w) = Throws e ->
  instanceofError e = true /\ truthy (Js.message e) = true.
Proof.
  unfold Stt.transcribeAudio, tryCatch, bind, record, await, ret, throw.
  destruct (length audioBuffer =? 0).
  { cbn. intros [= <-]. now split. }
  destruct (length audioBuffer <? Stt.minimumBytes); [discriminate|].
  cbn. destruct (recognize env audioBuffer) as [[[|r rs]|]|e0]; try discriminate.
  cbn. destruct (code e0) as [c|].
  - destruct (c =? 16)%Z; [intros [= <-]; now split|].
    destruct (c =? 3)%Z; [intros [= <-]; now split|].
    destruct (c =? 8)%Z; intros [= <-]; now split.
  - intros [= <-]. now split.
Qed.

Lemma range_all {A} (l : list A) : Redis.range l 0 (-1) = l.
Proof.
  unfold Redis.range. cbn [Z.ltb Z.compare].
  destruct (Z.ltb_spec (Z.of_nat (length l) + -1) 0) as [H|H].
  - destruct l; [reflexivity | cbn [length] in H; lia].
  - cbn [drop Z.to_nat].
    apply take_ge. lia.
Qed.

Lemma range_last_100 {A} (l : list A) :
  Redis.range l (-100) (-1) = sliceLast 100 l.
Proof.
  unfold Redis.range, sliceLast. cbn [Z.ltb Z.compare].
  destruct (Z.ltb_spec (Z.of_nat (length l) + -1)
              (Z.max (Z.of_nat (length l) + -100) 0)) as [H|H].
  - destruct l; [reflexivity | cbn [length] in H; lia].
  - replace (Z.to_nat (Z.max (Z.of_nat (length l) + -100) 0))
      with (length l - 100) by lia.
    apply take_ge. rewrite length_drop. lia.
Qed.

Lemma initializeSession_outcome env userId friendId w :
  initializeSession env userId friendId w =
    (Returns (sessionKey userId friendId),
     {| sessions :=
          <[sessionKey userId friendId :=
              {| Effects.userId := userId; Effects.friendId := friendId;
                 context := seededContext env userId w |}]> (sessions w);
        chats := chats w;
        trace := trace w ++ [CallLrange ("chat:" +:+ userId) 0 (-1)] |}).
Proof.
  unfold initializeSession, Redis.getRecentChats, Redis.lrange, seededContext.
  unfold tryCatch, bind, record, failWhen, getWorld, setSessions, ret, throw.
  cbn. destruct (lrangeFails env _); cbn; [reflexivity|].
  now rewrite range_all.
Qed.

Lemma lookupOrInitialize_existing env userId friendId w s :
  sessions w !! sessionKey userId friendId = Some s ->
  lookupOrInitialize env userId friendId w = (Returns (Some s), w).
Proof.
  intros H. unfold lookupOrInitialize. rewrite bind_unfold.
  cbn [getWorld]. now rewrite H.
Qed.

Lemma lookupOrInitialize_missing env userId friendId w :
  sessions w !! sessionKey userId friendId = None ->
  lookupOrInitialize env userId friendId w =
    (Returns (Some {| Effects.userId := userId; Effects.friendId := friendId;
                      context := seededContext env userId w |}),
     snd (initializeSession env userId friendId w)).
Proof.
  intros H. unfold lookupOrInitialize. rewrite bind_unfold.
  cbn [getWorld]. rewrite H, bind_unfold, initializeSession_outcome.
  rewrite bind_unfold. cbn [getWorld ret sessions snd].
  now rewrite lookup_insert_eq.
Qed.

(** The session a turn works on, and the world it starts in. *)
Lemma lookupOrInitialize_outcome env userId friendId w :
  exists s0 w0,
    lookupOrInitialize env userId friendId w = (Returns (Some s0), w0)
    /\ sessions w0 !! sessionKey userId friendId = Some s0
    /\ (forall s, sessions w !! sessionKey userId friendId = Some s ->
          s0 = s /\ w0 = w).
Proof.
  destruct (sessions w !! sessionKey userId friendId) as [s|] eqn:E.
  - exists s, w. rewrite (lookupOrInitialize_existing _ _ _ _ _ E).
    repeat split; congruence.
  - eexists _, _. rewrite (lookupOrInitialize_missing _ _ _ _ E).
    split; [reflexivity|]. split; [|discriminate].
    rewrite initializeSession_outcome. cbn [snd sessions].
    now rewrite lookup_insert_eq.
Qed.

Lemma turn_outcome env audioBuffer userId sessionId s w :
  let out := turn env audioBuffer userId sessionId (Some s) w in
  match fst (Stt.transcribeAudio env audioBuffer w) with
  | Throws e => fst out = Throws e /\ sessions (snd out) = sessions w
  | Returns t =>
      if noTranscript t then
        (exists audio,
            fst out = Returns {| response := didntCatch; transcript := "";
                                 audioBuffer := audio; error := None |})
        /\ sessions (snd out) = sessions w
      else
        match pushChatFault env userId user t with
        | Some e => fst out = Throws e /\ sessions (snd out) = sessions w
        | None =>
            (exists audio,
                fst out = Returns {| response := reply env userId (context s) t;
                                     transcript := t;
                                     audioBuffer := audio; error := None |})
            /\ sessions (snd out) =
                 <[sessionId :=
                     {| Effects.userId := Effects.userId s;
                        Effects.friendId := Effects.friendId s;
                        context := updatedContext (context s) t
                                     (reply env userId (context s) t) |}]>
                   (sessions w)
            /\ In (CallQuery userId [] 5) (trace (snd out))
        end
  end.
Proof.
  intros out. subst out. unfold turn. rewrite bind_unfold.
  destruct (Stt.transcribeAudio env audioBuffer w) as [[t|e] w1] eqn:Et;
    keeps Et K1;
    cbn [fst snd]; [|now split].
  destruct (noTranscript t).
  - (* nothing was heard *)
    rewrite bind_unfold.
    destruct (orNull (Tts.synthesizeSpeech env didntCatch) w1)
      as [c2 w2] eqn:E2.
    keeps E2 K2.
    destruct (neverThrows_orNull (Tts.synthesizeSpeech env didntCatch) w1)
      as [audio Ha].
    rewrite E2 in Ha. cbn in Ha. subst c2. cbn.
    split; [now exists audio | congruence].
  - (* Step 2 *)
    rewrite bind_unfold.
    pose proof (pushChat_outcome env userId user t w1) as Hp.
    destruct (Redis.pushChat env userId user t w1) as [c2 w2] eqn:E2.
    keeps E2 K2.
    cbn [fst] in Hp. subst c2.
    destruct (pushChatFault env userId user t) as [e|];
      [cbn; split; congruence|].
    (* Step 3 *)
    rewrite bind_unfold.
    destruct (tryCatch (GeminiM.getEmbedding env t) (fun _ => ret []) w2)
      as [c3 w3] eqn:E3.
    keeps E3 K3.
    assert (exists embedding, c3 = Returns embedding) as [embedding ->].
    { assert (N : neverThrows (tryCatch (GeminiM.getEmbedding env t)
                                        (fun _ => ret []))) by total.
      destruct (N w2) as [a Ha]. rewrite E3 in Ha. now exists a. }
    rewrite bind_unfold.
    pose proof (recall_outcome env userId w3) as Hr.
    destruct (tryCatch (Pinecone.searchMemory env userId []) (fun _ => ret []) w3)
      as [c4 w4] eqn:E4.
    keeps E4 K4.
    pose proof (recall_records env userId w3) as Q4. rewrite E4 in Q4.
    cbn [snd] in Q4.
    cbn [fst] in Hr. subst c4.
    (* Steps 4 and 5 *)
    rewrite bind_unfold. cbn [contextOf ret].
    rewrite bind_unfold.
    pose proof (generateResponse_outcome env
                  (enhance (context s) (recall env userId) t) t w4) as Hg.
    destruct (GeminiM.generateResponse env
                (enhance (context s) (recall env userId) t) t w4)
      as [c5 w5] eqn:E5.
    keeps E5 K5. carry E5 Q4 Q5.
    cbn [fst] in Hg. subst c5. fold (reply env userId (context s) t).
    (* Step 6 *)
    rewrite bind_unfold.
    destruct (orNull (Tts.synthesizeSpeech env (reply env userId (context s) t)) w5)
      as [c6 w6] eqn:E6.
    keeps E6 K6. carry E6 Q5 Q6.
    destruct (neverThrows_orNull
                (Tts.synthesizeSpeech env (reply env userId (context s) t)) w5)
      as [audio Ha].
    rewrite E6 in Ha. cbn in Ha. subst c6.
    rewrite bind_unfold.
    destruct (swallow (Redis.pushChat env userId ai (reply env userId (context s) t)) w6)
      as [c7 w7] eqn:E7.
    keeps E7 K7. carry E7 Q6 Q7.
    destruct (neverThrows_swallow
                (Redis.pushChat env userId ai (reply env userId (context s) t)) w6)
      as [u7 H7].
    rewrite E7 in H7. cbn in H7. subst c7.
    rewrite bind_unfold.
    destruct (storeVectorsInBackground env userId t
                (reply env userId (context s) t) embedding w7)
      as [c8 w8] eqn:E8.
    keeps E8 K8. carry E8 Q7 Q8.
    destruct (neverThrows_storeVectorsInBackground env userId t
                (reply env userId (context s) t) embedding w7)
      as [u8 H8].
    rewrite E8 in H8. cbn in H8. subst c8.
    (* Step 7 *)
    cbn. split; [now exists audio|].
    split; [congruence | exact Q8].
Qed.

Lemma turnFailed_outcome env e w :
  (exists audio,
      fst (turnFailed env e w) =
        Returns {| response := errorMessage; transcript := "";
                   audioBuffer := audio;
                   error := Some (if instanceofError e then Js.message e
                                  else "Unknown error") |})
  /\ sessions (snd (turnFailed env e w)) = sessions w.
Proof.
  unfold turnFailed. rewrite bind_unfold.
  destruct (orNull (Tts.synthesizeSpeech env errorMessage) w) as [c1 w1] eqn:E1.
  keeps E1 K1.
  destruct (neverThrows_orNull (Tts.synthesizeSpeech env errorMessage) w)
    as [audio Ha].
  rewrite E1 in Ha. cbn in Ha. subst c1. cbn.
  split; [now exists audio | exact K1].
Qed.

(** The four ways a turn can go, told from the transcriber's outcome
    and from the fate of the user's chat-log entry. *)
Lemma process_outcome env audioBuffer userId friendId w :
  exists s0 w0,
    lookupOrInitialize env userId friendId w = (Returns (Some s0), w0) /\
    let out := processCompleteAudio env audioBuffer userId friendId w in
    let failed e :=
      (exists audio,
          fst out =
            Returns {| response := errorMessage; transcript := "";
                       audioBuffer := audio;
                       error := Some (if instanceofError e then Js.message e
                                      else "Unknown error") |})
      /\ sessions (snd out) = sessions w0 in
    match fst (Stt.transcribeAudio env audioBuffer w) with
    | Throws e => failed e
    | Returns t =>
        if noTranscript t then
          (exists audio,
              fst out = Returns {| response := didntCatch; transcript := "";
                                   audioBuffer := audio; error := None |})
          /\ sessions (snd out) = sessions w0
        else
          match pushChatFault env userId user t with
          | Some e => failed e
          | None =>
              (exists audio,
                  fst out =
                    Returns {| response := reply env userId (context s0) t;
                               transcript := t;
                               audioBuffer := audio; error := None |})
              /\ sessions (snd out) =
                   <[sessionKey userId friendId :=
                       {| Effects.userId := Effects.userId s0;
                          Effects.friendId := Effects.friendId s0;
                          context := updatedContext (context s0) t
                                       (reply env userId (context s0) t) |}]>
                     (sessions w0)
              /\ In (CallQuery userId [] 5) (trace (snd out))
          end
    end.
Proof.
  destruct (lookupOrInitialize_outcome env userId friendId w)
    as (s0 & w0 & El & _ & _).
  exists s0, w0. split; [exact El|].
  intros out failed. subst out failed.
  unfold processCompleteAudio. rewrite bind_unfold, El. unfold tryCatch.
  pose proof (turn_outcome env audioBuffer userId
                (sessionKey userId friendId) s0 w0) as T.
  rewrite (transcribeAudio_any_world env audioBuffer w w0).
  destruct (turn env audioBuffer userId (sessionKey userId friendId) (Some s0) w0)
    as [c w1] eqn:Et.
  cbn [fst snd] in T.
  destruct (fst (Stt.transcribeAudio env audioBuffer w0)) as [t|e].
  - destruct (noTranscript t).
    + destruct T as [[audio ->] K]. cbn. split; [now exists audio | exact K].
    + destruct (pushChatFault env userId user t) as [e|].
      * destruct T as [-> K].
        destruct (turnFailed_outcome env e w1) as [F1 F2].
        split; [exact F1 | congruence].
      * destruct T as ([audio ->] & K & Q). cbn.
        split; [now exists audio | now split].
  - destruct T as [-> K].
    destruct (turnFailed_outcome env e w1) as [F1 F2].
    split; [exact F1 | congruence].
Qed.

End Turn.

(** ** Generation: normalisation, fallback and the timer *)

Section Generation.
Import Js Effects Logic Conversation.

(** C9.  Whatever text the language model answers, the reply returned
    by [generateResponse] is that text, trimmed, cut after its first
    period when it has one and left as it is otherwise. *)
Theorem reply_ends_at_first_period (random : Q) (context : list string)
    (userMessage : string) (ms : N) (text : string) :
  Gemini.generateResponse
    (fun _ => {| Gemini.settlesAfter := ms; Gemini.settlesAs := Fulfilled text |})
    random context userMessage
  = Spec.upToFirstPeriod (trim text).
Proof.
  unfold Gemini.generateResponse, Gemini.generateResponseRun.
  cbn [Gemini.settlesAs Gemini.returned].
  apply firstSentence_upToFirstPeriod.
Qed.

Lemma randomIndex_in_range (r : Q) (n : nat) :
  (0 <= r)%Q -> (r < 1)%Q -> 0 < n -> Gemini.randomIndex r n < n.
Proof.
  intros H0 H1 Hn. unfold Gemini.randomIndex.
  set (k := inject_Z (Z.of_nat n)).
  assert (Hk : (0 < k)%Q).
  { unfold k. change 0%Q with (inject_Z 0). rewrite <- Zlt_Qlt. lia. }
  assert (Lo : (0 <= Qfloor (r * k))%Z).
  { change 0%Z with (Qfloor (inject_Z 0)) at 1. apply Qfloor_resp_le.
    change (inject_Z 0) with 0%Q. apply Qmult_le_0_compat; [exact H0|].
    now apply Qlt_le_weak. }
  assert (Hi : (Qfloor (r * k) < Z.of_nat n)%Z).
  { rewrite Zlt_Qlt. apply Qle_lt_trans with (r * k)%Q; [apply Qfloor_le|].
    fold k. apply Qlt_le_trans with (1 * k)%Q.
    - now apply Qmult_lt_compat_r.
    - apply Qle_lteq. right. apply Qmult_1_l. }
  lia.
Qed.

(** A rejected generation call yields one of the canned sentences. *)
Lemma generation_failure_falls_back send random context userMessage e :
  (0 <= random)%Q -> (random < 1)%Q ->
  Gemini.settlesAs (send (Gemini.fullPrompt context userMessage)) = RejectedWith e ->
  In (Gemini.generateResponse send random context userMessage)
     Gemini.fallbackResponses.
Proof.
  intros H0 H1 Hs.
  unfold Gemini.generateResponse, Gemini.generateResponseRun.
  rewrite Hs. cbn [Gemini.returned].
  apply nth_In. apply randomIndex_in_range; [assumption..|].
  cbn. lia.
Qed.

(** The time at which [generateResponse] returns, and what it returns,
    are those of the provider call: the timer decides neither. *)
Lemma generation_waits_for_the_provider send random context userMessage text :
  Gemini.settlesAs (send (Gemini.fullPrompt context userMessage)) = Fulfilled text ->
  let g := Gemini.generateResponseRun send random context userMessage in
  Gemini.returnedAfter g = Gemini.settlesAfter (send (Gemini.fullPrompt context userMessage))
  /\ Gemini.returned g = Gemini.firstSentence (trim text).
Proof.
  intros Hs. unfold Gemini.generateResponseRun. rewrite Hs. now split.
Qed.

(** C4.  A generation call that answers after 20 seconds, five seconds
    past the 15-second timer: [generateResponse] returns only then, the
    controller has been aborted to no effect, and the reply is the
    provider's text, not one of the fallback sentences.  The turn built
    on it keeps the real transcript. *)
Theorem generation_deadline_not_enforced :
  let late := Sample.replies 20000 "Sure thing. What else is on your mind?" in
  let g := Gemini.generateResponseRun (fun _ => late) (7 # 10) ["user: hi"] "hi" in
  (Gemini.timeoutMs < Gemini.returnedAfter g)%N
  /\ Gemini.controllerAborted g = true
  /\ Gemini.returned g = "Sure thing."
  /\ ~ In (Gemini.returned g) Gemini.fallbackResponses
  /\ fst (processCompleteAudio (Sample.env (Sample.heard "hi") None None late)
            (Sample.clip 1000) "u1" "f1" emptyWorld)
     = Returns {| response := "Sure thing."; transcript := "hi";
                  audioBuffer := Some Sample.speech; error := None |}.
Proof.
  cbv zeta. repeat split; try (vm_compute; reflexivity).
  vm_compute. intros H. repeat (destruct H as [H|H]; [discriminate|]). exact H.
Qed.

End Generation.

(** ** The calls a turn makes to the memory store *)

Section Recall.
Import Js Effects Logic Conversation.

Lemma extendsBy_accepts (ok : Call -> Prop) base c :
  ok c -> accepts (extendsBy ok base) c.
Proof.
  intros Hc w (cs & E & F). exists (cs ++ [c]). cbn. split.
  - rewrite E. now rewrite <- app_assoc.
  - apply Forall_app. split; [exact F | now constructor].
Qed.

Lemma extendsBy_chatBlind ok base : chatBlind (extendsBy ok base).
Proof. intros w c H. exact H. Qed.

Lemma extendsBy_sessionBlind ok base : sessionBlind (extendsBy ok base).
Proof. intros w s H. exact H. Qed.

Lemma processCompleteAudio_calls env audioBuffer userId friendId base :
  maintains (extendsBy (recallByUserOnly userId) base)
            (processCompleteAudio env audioBuffer userId friendId).
Proof.
  unfold processCompleteAudio, lookupOrInitialize, initializeSession, turn,
    turnFailed, storeVectorsInBackground, assignContext, contextOf, orNull,
    swallow, Stt.transcribeAudio, Redis.pushChat, Redis.getRecentChats,
    Redis.rpush, Redis.ltrim, Redis.lrange, GeminiM.generateResponse,
    GeminiM.getEmbedding, Pinecone.searchMemory, Pinecone.storeVector,
    Tts.synthesizeSpeech.
  maintain;
    first [ apply maintains_record; apply extendsBy_accepts; cbn; tauto
          | apply maintains_setChats; apply extendsBy_chatBlind
          | apply maintains_setSessions; apply extendsBy_sessionBlind ].
Qed.

(** C10.  Every query a turn sends to the long-term memory is made in
    the user's namespace with the empty vector; a turn that runs to
    completion makes that query, and the memory its prompt is built
    from is [recall env userId], in which neither the transcript nor
    its embedding appears. *)
Theorem recall_ignores_the_utterance env audioBuffer userId friendId w :
  let out := processCompleteAudio env audioBuffer userId friendId w in
  (exists calls,
      trace (snd out) = trace w ++ calls
      /\ Forall (recallByUserOnly userId) calls)
  /\ (forall r, fst out = Returns r -> error r = None -> transcript r <> "" ->
        In (CallQuery userId [] 5) (trace (snd out))
        /\ exists s0,
             fst (lookupOrInitialize env userId friendId w) = Returns (Some s0)
             /\ response r =
                  Gemini.generateResponse (chatSendMessage env) (random env)
                    (enhance (context s0) (recall env userId) (transcript r))
                    (transcript r)).
Proof.
  intros out. split.
  - apply (processCompleteAudio_calls env audioBuffer userId friendId (trace w) w).
    exists []. split; [now rewrite app_nil_r | constructor].
  - intros r Hr He Ht.
    destruct (process_outcome env audioBuffer userId friendId w)
      as (s0 & w0 & El & H).
    cbv zeta in H. fold out in H. rewrite Hr in H.
    destruct (fst (Stt.transcribeAudio env audioBuffer w)) as [t|e].
    + destruct (noTranscript t).
      * destruct H as [[a [= ->]] _]. now cbn in Ht.
      * destruct (pushChatFault env userId user t) as [e|].
        -- destruct H as [[a [= ->]] _]. discriminate.
        -- destruct H as ([a [= ->]] & _ & Q). cbn [transcript response].
           split; [exact Q|]. exists s0. rewrite El. now split.
    + destruct H as [[a [= ->]] _]. discriminate.
Qed.

End Recall.

(** ** Turns: the session context, failures and short audio *)

Section Turns.
Import Js Effects Logic Conversation.

Lemma sliceLast_length {A} n (l : list A) : length (sliceLast n l) <= n.
Proof. unfold sliceLast. rewrite length_drop. lia. Qed.

Lemma updatedContext_length c t a : length (updatedContext c t a) <= 10.
Proof. apply sliceLast_length. Qed.

(** A session whose context has at most ten entries keeps that bound
    through every turn, completed or not. *)
Lemma context_bound_kept env audioBuffer userId friendId w s :
  sessions w !! sessionKey userId friendId = Some s ->
  length (context s) <= 10 ->
  exists s',
    sessions (snd (processCompleteAudio env audioBuffer userId friendId w))
      !! sessionKey userId friendId = Some s'
    /\ length (context s') <= 10.
Proof.
  intros Hs Hl.
  destruct (lookupOrInitialize_outcome env userId friendId w)
    as (s1 & w1 & El1 & _ & Hsame).
  destruct (Hsame s Hs) as [-> ->].
  destruct (process_outcome env audioBuffer userId friendId w)
    as (s0 & w0 & El & H).
  rewrite El1 in El. injection El as <- <-. cbv zeta in H.
  destruct (fst (Stt.transcribeAudio env audioBuffer w)) as [t|e].
  - destruct (noTranscript t).
    + destruct H as [_ K]. exists s. now rewrite K.
    + destruct (pushChatFault env userId user t) as [e|].
      * destruct H as [_ K]. exists s. now rewrite K.
      * destruct H as (_ & K & _). eexists. rewrite K, lookup_insert_eq.
        split; [reflexivity | apply updatedContext_length].
  - destruct H as [_ K]. exists s. now rewrite K.
Qed.

(** ... and so through any number of turns. *)
Lemma context_bounded_after_turns turns userId friendId w s :
  sessions w !! sessionKey userId friendId = Some s ->
  length (context s) <= 10 ->
  exists s',
    sessions (converse turns userId friendId w) !! sessionKey userId friendId
    = Some s'
    /\ length (context s') <= 10.
Proof.
  revert w s. induction turns as [|[env audioBuffer] rest IH]; intros w s Hs Hl.
  - exists s. now split.
  - cbn [converse].
    destruct (context_bound_kept env audioBuffer userId friendId w s Hs Hl)
      as (s1 & Hs1 & Hl1).
    exact (IH _ s1 Hs1 Hl1).
Qed.

(** C2.  A turn that runs to completion (a result without error whose
    transcript is not empty) leaves in the session the last ten entries
    of the former context followed by ["user: <transcript>"] and
    ["ai: <reply>"]: whatever the context was before, it has at most ten
    entries after the turn, and it still has at most ten after any
    number of further turns, completed or not. *)
Theorem context_bounded_after_completed_turn env audioBuffer userId friendId w r :
  let out := processCompleteAudio env audioBuffer userId friendId w in
  fst out = Returns r -> error r = None -> transcript r <> "" ->
  exists s',
    sessions (snd out) !! sessionKey userId friendId = Some s'
    /\ length (context s') <= 10
    /\ (forall s,
          sessions w !! sessionKey userId friendId = Some s ->
          context s' =
            sliceLast 10 (context s ++ ["user: " +:+ transcript r;
                                        "ai: " +:+ response r]))
    /\ (forall later, exists s'',
          sessions (converse later userId friendId (snd out))
            !! sessionKey userId friendId = Some s''
          /\ length (context s'') <= 10).
Proof.
  intros out Hr He Ht.
  destruct (lookupOrInitialize_outcome env userId friendId w)
    as (s1 & w1 & El1 & _ & Hsame).
  destruct (process_outcome env audioBuffer userId friendId w)
    as (s0 & w0 & El & H).
  rewrite El1 in El. injection El as <- <-.
  cbv zeta in H. fold out in H. rewrite Hr in H.
  destruct (fst (Stt.transcribeAudio env audioBuffer w)) as [t|e].
  - destruct (noTranscript t).
    + destruct H as [[a [= ->]] _]. now cbn in Ht.
    + destruct (pushChatFault env userId user t) as [e|].
      * destruct H as [[a [= ->]] _]. discriminate.
      * destruct H as ([a [= ->]] & K & _). cbn [transcript response].
        eexists. rewrite K, lookup_insert_eq. split; [reflexivity|].
        cbn [context]. split; [apply updatedContext_length|].
        split.
        -- intros s Hs. destruct (Hsame s Hs) as [-> _]. reflexivity.
        -- intros later. eapply context_bounded_after_turns.
           ++ rewrite K. apply lookup_insert_eq.
           ++ apply updatedContext_length.
  - destruct H as [[a [= ->]] _]. discriminate.
Qed.

(** The boundary of the specification: six completed turns from an empty
    context leave exactly ten entries, the five most recent pairs. *)
Example six_turns_keep_five_pairs :
  let says t a := (Sample.healthy t a, Sample.clip 1000) in
  let w0 := snd (initializeSession (Sample.healthy "" "") "u1" "f1" emptyWorld) in
  let w6 :=
    converse [says "one" "1."; says "two" "2."; says "three" "3.";
              says "four" "4."; says "five" "5."; says "six" "6."]
             "u1" "f1" w0 in
  context <$> (sessions w6 !! "u1-f1")
  = Some ["user: two"; "ai: 2."; "user: three"; "ai: 3."; "user: four"; "ai: 4.";
          "user: five"; "ai: 5."; "user: six"; "ai: 6."].
Proof. vm_compute. reflexivity. Qed.

(** C3.  When the transcriber throws, [processCompleteAudio] returns the
    apology with an empty transcript and the error's message as error
    detail, a message that is never empty; the session map is what the
    turn started from, so that an existing session keeps its context. *)
Theorem transcriber_failure_result env audioBuffer userId friendId w e :
  fst (Stt.transcribeAudio env audioBuffer w) = Throws e ->
  let out := processCompleteAudio env audioBuffer userId friendId w in
  (exists audio,
      fst out = Returns {| response := errorMessage; transcript := "";
                           audioBuffer := audio;
                           error := Some (Js.message e) |})
  /\ truthy errorMessage = true
  /\ truthy (Js.message e) = true
  /\ sessions (snd out) = sessions (snd (lookupOrInitialize env userId friendId w))
  /\ (forall s, sessions w !! sessionKey userId friendId = Some s ->
        sessions (snd out) = sessions w).
Proof.
  intros He out.
  destruct (transcribeAudio_throws_Error _ _ _ _ He) as [Hi Hm].
  destruct (lookupOrInitialize_outcome env userId friendId w)
    as (s1 & w1 & El1 & _ & Hsame).
  destruct (process_outcome env audioBuffer userId friendId w)
    as (s0 & w0 & El & H).
  rewrite El1 in El. injection El as <- <-.
  cbv zeta in H. fold out in H. rewrite He, Hi in H.
  destruct H as [H K].
  split; [exact H|]. split; [reflexivity|]. split; [exact Hm|].
  rewrite El1. cbn [snd]. split; [exact K|].
  intros s Hs. destruct (Hsame s Hs) as [_ <-]. exact K.
Qed.

Lemma transcribeAudio_empty env w :
  fst (Stt.transcribeAudio env [] w) = Throws (Error "Failed to transcribe audio").
Proof. reflexivity. Qed.

Lemma transcribeAudio_short env audioBuffer w :
  0 < length audioBuffer < Stt.minimumBytes ->
  Stt.transcribeAudio env audioBuffer w = (Returns "", w).
Proof.
  intros [H0 H1]. unfold Stt.transcribeAudio, tryCatch.
  destruct (Nat.eqb_spec (length audioBuffer) 0) as [E|_]; [lia|].
  destruct (Nat.ltb_spec (length audioBuffer) Stt.minimumBytes) as [_|E];
    [reflexivity | lia].
Qed.

(** C5, as the code has it.  For a non-empty clip below the 1000-byte
    threshold the transcriber returns the empty transcript without
    calling the recogniser, and the turn is answered with the fixed "I
    didn't catch that" reply, an empty transcript and no error, the
    session map being left as the turn found it.  An empty clip makes
    the transcriber throw and is answered as a failed turn. *)
Theorem short_audio_short_circuits env audioBuffer userId friendId w :
  let out := processCompleteAudio env audioBuffer userId friendId w in
  (0 < length audioBuffer < Stt.minimumBytes ->
     (forall w', Stt.transcribeAudio env audioBuffer w' = (Returns "", w'))
     /\ (exists audio,
           fst out = Returns {| response := didntCatch; transcript := "";
                                audioBuffer := audio; error := None |})
     /\ sessions (snd out) = sessions (snd (lookupOrInitialize env userId friendId w)))
  /\ (length audioBuffer = 0 ->
        exists audio,
          fst out = Returns {| response := errorMessage; transcript := "";
                               audioBuffer := audio;
                               error := Some "Failed to transcribe audio" |}).
Proof.
  intros out.
  destruct (process_outcome env audioBuffer userId friendId w)
    as (s0 & w0 & El & H).
  cbv zeta in H. fold out in H. split.
  - intros Hlen. rewrite (transcribeAudio_short _ _ _ Hlen) in H.
    cbn [fst noTranscript truthy negb orb] in H. rewrite El.
    split; [|exact H]. intros w'. now apply transcribeAudio_short.
  - intros Hlen. destruct audioBuffer; [|discriminate].
    rewrite transcribeAudio_empty in H. exact (proj1 H).
Qed.

(** The claim C5 fails on the empty clip, which is below the threshold:
    the result carries an error and the other apology. *)
Lemma empty_audio_is_a_failed_turn :
  length (@nil Byte.byte) < Stt.minimumBytes
  /\ fst (processCompleteAudio (Sample.healthy "hello" "Hi there. How are you?")
            [] "u1" "f1" emptyWorld)
     = Returns {| response := errorMessage; transcript := "";
                  audioBuffer := Some Sample.speech;
                  error := Some "Failed to transcribe audio" |}.
Proof. split; [cbv; lia | vm_compute; reflexivity]. Qed.

End Turns.

(** ** The session store and the chat log *)

Section SessionStore.
Import Js Effects Logic Conversation.

(** C6, as the code has it.  [initializeSession] is not a
    lookup-or-create: every call stores under the key a session seeded
    from the user's chat log as it is then (with an empty context when
    the log cannot be read), whether or not the key already had a
    session, and returns the key.  Calling it twice in a row gives the
    same session map as calling it once.  The lookup-or-create lives in
    [processCompleteAudio], which takes an existing session as it is. *)
Theorem initializeSession_reseeds env userId friendId w :
  let key := sessionKey userId friendId in
  let out := initializeSession env userId friendId w in
  fst out = Returns key
  /\ sessions (snd out) =
       <[key := {| Effects.userId := userId; Effects.friendId := friendId;
                   context := seededContext env userId w |}]> (sessions w)
  /\ chats (snd out) = chats w
  /\ sessions (snd (initializeSession env userId friendId (snd out)))
     = sessions (snd out)
  /\ (forall s, sessions w !! key = Some s ->
        lookupOrInitialize env userId friendId w = (Returns (Some s), w)).
Proof.
  intros key out. subst key out.
  rewrite !initializeSession_outcome. cbn [fst snd sessions chats].
  repeat split.
  - unfold seededContext, Redis.listAt. cbn [chats].
    now rewrite insert_insert_eq.
  - intros s Hs. now apply lookupOrInitialize_existing.
Qed.

(** The claim C6 fails.  User [u1] talks to friend [f1], then to friend
    [f2], with every collaborator healthy; a second [init] for
    [(u1, f1)] replaces the two-entry context of that session by the
    four entries now in the user's chat log.  And when the chat log
    cannot be read at the second [init], the context is replaced by the
    empty one. *)
Lemma second_init_replaces_the_context :
  let env := Sample.healthy "hello" "Hi there. How are you?" in
  let unreadable :=
    Sample.env (Sample.heard "hello") None (Some (Error "Connection is closed."))
               (Sample.replies 800 "Hi there. How are you?") in
  let w1 := snd (initializeSession env "u1" "f1" emptyWorld) in
  let w2 := snd (processCompleteAudio env (Sample.clip 1000) "u1" "f1" w1) in
  let w3 := snd (processCompleteAudio env (Sample.clip 1000) "u1" "f2" w2) in
  context <$> (sessions w3 !! "u1-f1") = Some ["user: hello"; "ai: Hi there."]
  /\ context <$> (sessions (snd (initializeSession env "u1" "f1" w3)) !! "u1-f1")
     = Some ["user: hello"; "ai: Hi there."; "user: hello"; "ai: Hi there."]
  /\ context <$> (sessions (snd (initializeSession unreadable "u1" "f1" w3)) !! "u1-f1")
     = Some [].
Proof. vm_compute. repeat split. Qed.

(** A failure of the user's chat-log entry ends any turn as a failed
    turn. *)
Lemma user_log_failure_is_turn_failure env audioBuffer userId friendId w t e :
  fst (Stt.transcribeAudio env audioBuffer w) = Returns t ->
  noTranscript t = false ->
  pushChatFault env userId user t = Some e ->
  exists audio,
    fst (processCompleteAudio env audioBuffer userId friendId w) =
      Returns {| response := errorMessage; transcript := "";
                 audioBuffer := audio;
                 error := Some (if instanceofError e then Js.message e
                                else "Unknown error") |}.
Proof.
  intros Ht Hn Hp.
  destruct (process_outcome env audioBuffer userId friendId w)
    as (s0 & w0 & El & H).
  cbv zeta in H. rewrite Ht, Hn, Hp in H. exact (proj1 H).
Qed.

(** C7.  The user says "hello" and Redis refuses the write of the
    user's entry: the turn ends in the [catch] block, with the apology,
    an empty transcript and the Redis error as error detail, and the
    language model is never called.  The same Redis failure on the
    reply's entry, which the code guards with [.catch], would not have
    ended the turn. *)
Theorem user_log_failure_aborts_turn :
  let env :=
    Sample.env (Sample.heard "hello") (Some (Error "Connection is closed.")) None
               (Sample.replies 800 "Hi there. How are you?") in
  let out := processCompleteAudio env (Sample.clip 1000) "u1" "f1" emptyWorld in
  fst out = Returns {| response := errorMessage; transcript := "";
                       audioBuffer := Some Sample.speech;
                       error := Some "Connection is closed." |}
  /\ trace (snd out) =
       [ CallLrange "chat:u1" 0 (-1);
         CallRecognize (Sample.clip 1000);
         CallRpush "chat:u1" {| role := user; message := "hello" |};
         CallSynthesize errorMessage ]
  /\ fst (swallow (Redis.pushChat env "u1" ai "Hi there.") emptyWorld) = Returns tt.
Proof. vm_compute. repeat split. Qed.

End SessionStore.

(** ** The gateway: busy flag and routing *)

Section GatewayFacts.
Import Js Effects Gateway.

Variable pipeline : Env -> Buffer -> string -> string -> M Conversation.TurnResult.

(** *** Lists *)

Lemma delete_nodup {A} (l : list A) i x :
  l !! i = Some x -> NoDup l ->
  NoDup (delete i l) /\ (x ∉ delete i l)
  /\ (forall y, y <> x -> (y ∈ l <-> y ∈ delete i l)).
Proof.
  intros Hi Hnd. rewrite delete_take_drop.
  rewrite <- (take_drop_middle l i x Hi) in Hnd.
  apply NoDup_app in Hnd as (N1 & N12 & N2).
  apply NoDup_cons in N2 as (Nx & N2).
  split; [|split].
  - apply NoDup_app. repeat split; [exact N1 | | exact N2].
    intros y Hy Hy'. apply (N12 y Hy). apply elem_of_cons. now right.
  - intros [H|H]%elem_of_app; [|contradiction].
    apply (N12 x H). apply elem_of_cons. now left.
  - intros y Hy. rewrite <- (take_drop_middle l i x Hi) at 1.
    rewrite !elem_of_app, elem_of_cons. tauto.
Qed.

Lemma filter_absent (o : nat) (l : list Turn) :
  o ∉ session <$> l -> List.filter (fun t => session t =? o) l = [].
Proof.
  induction l as [|t l IH]; [reflexivity|].
  rewrite fmap_cons, not_elem_of_cons. intros [Hne Hl]. cbn.
  destruct (Nat.eqb_spec (session t) o); [congruence | now apply IH].
Qed.

Lemma filter_nodup (o : nat) (l : list Turn) :
  NoDup (session <$> l) ->
  length (List.filter (fun t => session t =? o) l) <= 1.
Proof.
  induction l as [|t l IH]; [cbn; lia|].
  rewrite fmap_cons, NoDup_cons. intros [Hn Hnd]. cbn.
  destruct (Nat.eqb_spec (session t) o) as [<-|_]; [|now apply IH].
  rewrite filter_absent by exact Hn. cbn. lia.
Qed.

(** *** What the auxiliary operations leave alone *)

Lemma sendMessage_heap st ws f : heap (sendMessage st ws f) = heap st.
Proof. unfold sendMessage. now destruct (decide _). Qed.

Lemma sendMessage_inflight st ws f : inflight (sendMessage st ws f) = inflight st.
Proof. unfold sendMessage. now destruct (decide _). Qed.

Lemma sendMessage_world st ws f : world (sendMessage st ws f) = world st.
Proof. unfold sendMessage. now destruct (decide _). Qed.

Lemma sendMessage_clients st ws f : clients (sendMessage st ws f) = clients st.
Proof. unfold sendMessage. now destruct (decide _). Qed.

Lemma sendMessage_open st ws f :
  ws ∈ openSockets st -> sent (sendMessage st ws f) = sent st ++ [(ws, f)].
Proof. intros H. unfold sendMessage. now destruct (decide _). Qed.

Lemma sendMessage_busyExactly st ws f :
  busyExactly st -> busyExactly (sendMessage st ws f).
Proof.
  unfold busyExactly.
  now rewrite sendMessage_heap, sendMessage_inflight.
Qed.

Lemma setProcessing_inflight st o b : inflight (setProcessing st o b) = inflight st.
Proof. unfold setProcessing. now destruct (heap st !! o). Qed.

Lemma setProcessing_length st o b :
  length (heap (setProcessing st o b)) = length (heap st).
Proof.
  unfold setProcessing. destruct (heap st !! o); [|reflexivity].
  cbn. apply length_insert.
Qed.

Lemma setProcessing_same st o b s :
  heap st !! o = Some s ->
  heap (setProcessing st o b) !! o =
    Some {| userId := userId s; friendId := friendId s;
            sessionId := sessionId s; isProcessing := b |}.
Proof.
  intros H. unfold setProcessing. rewrite H. cbn.
  apply list_lookup_insert_eq. now apply lookup_lt_Some in H.
Qed.

Lemma setProcessing_other st o b o' :
  o <> o' -> heap (setProcessing st o b) !! o' = heap st !! o'.
Proof.
  intros H. unfold setProcessing. destruct (heap st !! o); [|reflexivity].
  cbn. now apply list_lookup_insert_ne.
Qed.

(** *** The busy flags are exact in every reachable state *)

Lemma handleInit_busyExactly env now st ws u f :
  busyExactly st -> busyExactly (handleInit env now st ws u f).
Proof.
  intros (N & B & F). unfold handleInit.
  destruct (negb (truthy u) || negb (truthy f));
    [now apply sendMessage_busyExactly|].
  destruct (Conversation.initializeSession env u f (world st)) as [[k|e] w];
    apply sendMessage_busyExactly; [|exact (conj N (conj B F))].
  split; [exact N|]. cbn [heap inflight]. split.
  - intros t Ht. rewrite length_app. specialize (B t Ht). lia.
  - intros o s Ho.
    destruct (lookup_lt_is_Some_2 (heap st ++ [mkClient u f (Some k) false]) o)
      as [s' Hs']; [now apply lookup_lt_Some in Ho|].
    destruct (decide (o < length (heap st))) as [Hlt|Hge].
    + rewrite lookup_app_l in Ho by exact Hlt. now apply F.
    + rewrite lookup_app_r in Ho by lia.
      assert (o = length (heap st)) as ->.
      { apply lookup_lt_Some in Ho. cbn in Ho. lia. }
      rewrite Nat.sub_diag in Ho. injection Ho as <-. cbn. split; [discriminate|].
      intros (t & Et & Ht)%list_elem_of_fmap. specialize (B t Ht). lia.
Qed.

Lemma handleCompleteAudioStart_busyExactly now st ws data :
  busyExactly st -> busyExactly (handleCompleteAudioStart now st ws data).
Proof.
  intros (N & B & F). unfold handleCompleteAudioStart, sessionOf.
  destruct (clients st !! ws) as [o|];
    [|now apply sendMessage_busyExactly].
  destruct (heap st !! o) as [s|] eqn:Ho;
    [|now apply sendMessage_busyExactly].
  destruct (isProcessing s) eqn:Hb;
    [now apply sendMessage_busyExactly|].
  assert (Hfree : o ∉ session <$> inflight st).
  { intros Hin. apply (F o s Ho) in Hin. congruence. }
  destruct data as [audioBuffer|].
  - (* the turn starts *)
    unfold busyExactly. cbn [heap inflight].
    rewrite sendMessage_heap, sendMessage_inflight, setProcessing_inflight.
    split; [|split].
    + rewrite fmap_app. apply NoDup_app. repeat split; [exact N | | ].
      * intros x Hx [->|[]%elem_of_nil]%elem_of_cons. contradiction.
      * apply NoDup_cons. split; [apply not_elem_of_nil | constructor].
    + rewrite setProcessing_length.
      intros t [Ht| ->%list_elem_of_singleton]%elem_of_app; [now apply B|].
      cbn. now apply lookup_lt_Some in Ho.
    + intros o' s' Ho'. rewrite fmap_app, elem_of_app. cbn.
      rewrite list_elem_of_singleton.
      destruct (decide (o = o')) as [<-|Hne].
      * rewrite (setProcessing_same _ _ _ _ Ho) in Ho'. injection Ho' as <-.
        cbn. tauto.
      * rewrite setProcessing_other in Ho' by exact Hne.
        rewrite (F o' s' Ho'). split; [tauto|]. intros [H|H]; [exact H | congruence].
  - (* [Buffer.from] throws: the flag is set and cleared at once *)
    split; [|split].
    + now rewrite setProcessing_inflight, !sendMessage_inflight, setProcessing_inflight.
    + rewrite setProcessing_inflight, !sendMessage_inflight, setProcessing_inflight.
      rewrite setProcessing_length, !sendMessage_heap, setProcessing_length.
      exact B.
    + intros o' s'.
      rewrite setProcessing_inflight, !sendMessage_inflight, setProcessing_inflight.
      destruct (decide (o = o')) as [<-|Hne].
      * pose proof (setProcessing_same st o true s Ho) as H1.
        rewrite <- (sendMessage_heap _ ws (ProcessingResponse "Processing your audio...")) in H1.
        rewrite <- (sendMessage_heap _ ws
                      (ErrorResponse "Failed to process audio"
                                     (Some (details bufferFromError)) now)) in H1.
        rewrite (setProcessing_same _ o false _ H1).
        intros [= <-]. cbn [isProcessing]. split; [discriminate | contradiction].
      * rewrite setProcessing_other, !sendMessage_heap, setProcessing_other
          by exact Hne.
        apply F.
Qed.

Lemma handleCompleteAudioResume_busyExactly env now st i :
  busyExactly st -> busyExactly (handleCompleteAudioResume pipeline env now st i).
Proof.
  intros (N & B & F). unfold handleCompleteAudioResume.
  destruct (inflight st !! i) as [t|] eqn:Hi; [|exact (conj N (conj B F))].
  assert (Hi' : (session <$> inflight st) !! i = Some (session t)).
  { now rewrite list_lookup_fmap, Hi. }
  destruct (delete_nodup _ _ _ Hi' N) as (N' & Hgone & Hrest).
  rewrite <- list_fmap_delete in N', Hgone, Hrest.
  set (st0 := {| heap := heap st; clients := clients st;
                 openSockets := openSockets st; sent := sent st;
                 inflight := delete i (inflight st); world := world st |}).
  assert (Hdone : forall st1,
             heap st1 = heap st -> inflight st1 = delete i (inflight st) ->
             busyExactly (setProcessing st1 (session t) false)).
  { intros st1 Hh Hf. unfold busyExactly.
    rewrite setProcessing_inflight, setProcessing_length, Hf, Hh.
    split; [exact N'|]. split.
    - intros u Hu. apply B.
      rewrite delete_take_drop in Hu.
      rewrite <- (take_drop_middle _ _ _ Hi).
      rewrite elem_of_app in Hu. rewrite elem_of_app, elem_of_cons. tauto.
    - intros o s.
      destruct (decide (session t = o)) as [<-|Hne].
      + destruct (lookup_lt_is_Some_2 (heap st) (session t)) as [s0 Hs0].
        { apply B. now apply list_elem_of_lookup_2 in Hi. }
        rewrite (setProcessing_same st1 _ _ s0) by now rewrite Hh.
        intros [= <-]. cbn. split; [discriminate | contradiction].
      + rewrite setProcessing_other, Hh by exact Hne.
        intros Ho. rewrite (F o s Ho). apply Hrest. congruence. }
  destruct (pipeline env (audio t) (turnUserId t) (turnFriendId t) (world st0))
    as [[result|e] w].
  - apply Hdone.
    + destruct (truthyError (Conversation.error result));
        now rewrite sendMessage_heap.
    + destruct (truthyError (Conversation.error result));
        now rewrite sendMessage_inflight.
  - apply Hdone; [now rewrite sendMessage_heap | now rewrite sendMessage_inflight].
Qed.

Lemma step_busyExactly ev st :
  busyExactly st -> busyExactly (step pipeline ev st).
Proof.
  intros H. destruct ev as [ws|ws [e|[u f|data|ty]] now env|i now env|ws]; cbn [step].
  - exact H.
  - now apply sendMessage_busyExactly.
  - now apply handleInit_busyExactly.
  - now apply handleCompleteAudioStart_busyExactly.
  - exact H.
  - now apply handleCompleteAudioResume_busyExactly.
  - exact H.
Qed.

Lemma reachable_busyExactly st : reachable pipeline st -> busyExactly st.
Proof.
  induction 1 as [|ev st _ IH].
  - split; [constructor|]. split.
    + intros t Ht. now apply elem_of_nil in Ht.
    + intros o s Ho. discriminate.
  - now apply step_busyExactly.
Qed.

End GatewayFacts.

Section GatewayClaims.
Import Js Effects Gateway.

Variable pipeline : Env -> Buffer -> string -> string -> M Conversation.TurnResult.

Lemma run_reachable evs st :
  reachable pipeline st -> reachable pipeline (run pipeline evs st).
Proof.
  revert st. induction evs as [|ev evs IH]; intros st H; [exact H|].
  cbn. apply IH. now constructor.
Qed.

Lemma setProcessing_clients st o b : clients (setProcessing st o b) = clients st.
Proof. unfold setProcessing. now destruct (heap st !! o). Qed.

(** A socket that has received no [init] carrying both identifiers has no
    session in the gateway. *)
Lemma no_init_no_session evs ws st :
  clients st !! ws = None ->
  Forall (fun ev => givesSession ws ev = false) evs ->
  clients (run pipeline evs st) !! ws = None.
Proof.
  revert st. induction evs as [|ev evs IH]; intros st Hc Hall; [exact Hc|].
  apply Forall_cons in Hall as [Hev Hall]. cbn [run fold_left].
  apply IH; [|exact Hall]. clear IH Hall.
  destruct ev as [ws'|ws' [e|[u f|data|ty]] now env|i now env|ws']; cbn [step].
  - exact Hc.
  - now rewrite sendMessage_clients.
  - unfold handleInit. cbn [givesSession] in Hev.
    destruct (truthy u), (truthy f); cbn [negb orb];
      try now rewrite sendMessage_clients.
    destruct (Conversation.initializeSession env u f (world st)) as [[k|e] w];
      rewrite sendMessage_clients; [|exact Hc].
    cbn [clients]. rewrite lookup_insert_ne; [exact Hc|].
    intros ->. rewrite Nat.eqb_refl in Hev. discriminate.
  - unfold handleCompleteAudioStart.
    destruct (sessionOf st ws') as [[o s]|]; [|now rewrite sendMessage_clients].
    destruct (isProcessing s); [now rewrite sendMessage_clients|].
    destruct data.
    + cbn [clients]. now rewrite sendMessage_clients, setProcessing_clients.
    + now rewrite setProcessing_clients, !sendMessage_clients, setProcessing_clients.
  - exact Hc.
  - unfold handleCompleteAudioResume.
    destruct (inflight st !! i) as [t|]; [|exact Hc].
    destruct (pipeline env _ _ _ _) as [[result|e] w];
      rewrite setProcessing_clients.
    + destruct (truthyError (Conversation.error result));
        now rewrite sendMessage_clients.
    + now rewrite sendMessage_clients.
  - unfold handleDisconnection. cbn [clients].
    destruct (decide (ws' = ws)) as [->|Hne].
    + apply lookup_delete_eq.
    + now rewrite lookup_delete_ne.
Qed.

(** Without a session for the socket, [handleCompleteAudio] sends the
    refusal and returns. *)
Lemma audio_without_session st ws data now :
  clients st !! ws = None ->
  handleCompleteAudioStart now st ws data
  = sendMessage st ws
      (ErrorResponse "Session not initialized. Please send init message first."
                     None now).
Proof.
  intros Hc. unfold handleCompleteAudioStart, sessionOf. now rewrite Hc.
Qed.

(** C8.  An [audio] message on a socket for which the gateway holds no
    session is answered with the "not initialized" error frame and
    nothing else happens: no turn is started and the orchestrator's
    world, its trace of calls included, is untouched. *)
Theorem audio_before_init_rejected st ws data now env :
  clients st !! ws = None ->
  let refusal :=
    ErrorResponse "Session not initialized. Please send init message first."
                  None now in
  let st' := step pipeline (Receive ws (Parsed (AudioMessage data)) now env) st in
  st' = sendMessage st ws refusal
  /\ inflight st' = inflight st
  /\ world st' = world st
  /\ heap st' = heap st
  /\ (ws ∈ openSockets st -> sent st' = sent st ++ [(ws, refusal)]).
Proof.
  intros Hc refusal st'. subst st'.
  cbn [step]. rewrite (audio_without_session st ws data now Hc).
  fold refusal.
  rewrite sendMessage_inflight, sendMessage_world, sendMessage_heap.
  repeat split. apply sendMessage_open.
Qed.

(** In particular, whatever happened before, an [audio] message on a
    socket that never received a complete [init] is refused and starts no
    turn. *)
Corollary audio_before_any_init_rejected evs ws data now env :
  Forall (fun ev => givesSession ws ev = false) evs ->
  let st := run pipeline evs initial in
  let st' := step pipeline (Receive ws (Parsed (AudioMessage data)) now env) st in
  st' = sendMessage st ws
          (ErrorResponse "Session not initialized. Please send init message first."
                         None now)
  /\ inflight st' = inflight st
  /\ world st' = world st.
Proof.
  intros Hall st st'. subst st'. cbn [step].
  rewrite (audio_without_session st ws data now).
  - now rewrite sendMessage_inflight, sendMessage_world.
  - apply no_init_no_session; [apply lookup_empty | exact Hall].
Qed.

(** C1, as the code has it.  In every reachable state of the gateway:
    an [audio] message on a socket whose [ClientSession] object is busy
    is answered with the "already processing" error frame, starts no
    turn and leaves the orchestrator untouched; when the pipeline of a
    turn in flight settles, whether it returns or throws, the turn is
    over and the busy flag of the object it holds is cleared; an
    [audio] message that fails before the pipeline is called clears the
    flag as well; and no [ClientSession] object is held by more than
    one turn in flight. *)
Theorem busy_flag_single_flight st :
  reachable pipeline st ->
  (forall ws o s data now env,
      clients st !! ws = Some o -> heap st !! o = Some s ->
      isProcessing s = true ->
      let st' := step pipeline (Receive ws (Parsed (AudioMessage data)) now env) st in
      st' = sendMessage st ws
              (ErrorResponse
                 "Already processing audio. Please wait for current request to complete."
                 None now)
      /\ inflight st' = inflight st /\ world st' = world st)
  /\ (forall i t now env,
        inflight st !! i = Some t ->
        let st' := step pipeline (Complete i now env) st in
        inflight st' = delete i (inflight st)
        /\ turnsOfObject (session t) st' = 0
        /\ exists s, heap st' !! session t = Some s /\ isProcessing s = false)
  /\ (forall ws o s now env,
        clients st !! ws = Some o -> heap st !! o = Some s ->
        isProcessing s = false ->
        let st' := step pipeline (Receive ws (Parsed (AudioMessage None)) now env) st in
        inflight st' = inflight st
        /\ exists s', heap st' !! o = Some s' /\ isProcessing s' = false)
  /\ (forall o, turnsOfObject o st <= 1).
Proof.
  intros Hr. pose proof (reachable_busyExactly pipeline st Hr) as Hb.
  destruct Hb as (N & B & F).
  split; [|split; [|split]].
  - intros ws o s data now env Hc Ho Hbusy st'. subst st'.
    cbn [step]. unfold handleCompleteAudioStart, sessionOf.
    rewrite Hc, Ho, Hbusy.
    now rewrite sendMessage_inflight, sendMessage_world.
  - intros i t now env Hi st'.
    pose proof (step_busyExactly pipeline (Complete i now env) st
                  (conj N (conj B F))) as (N' & _ & F').
    fold st' in N', F'.
    assert (Hfl : inflight st' = delete i (inflight st)).
    { subst st'. cbn [step]. unfold handleCompleteAudioResume. rewrite Hi.
      destruct (pipeline env _ _ _ _) as [[result|e] w];
        rewrite setProcessing_inflight.
      - destruct (truthyError (Conversation.error result));
          now rewrite sendMessage_inflight.
      - now rewrite sendMessage_inflight. }
    assert (Hlen : length (heap st') = length (heap st)).
    { subst st'. cbn [step]. unfold handleCompleteAudioResume. rewrite Hi.
      destruct (pipeline env _ _ _ _) as [[result|e] w];
        rewrite setProcessing_length.
      - destruct (truthyError (Conversation.error result));
          now rewrite sendMessage_heap.
      - now rewrite sendMessage_heap. }
    assert (Hgone : session t ∉ session <$> inflight st').
    { rewrite Hfl, list_fmap_delete.
      apply (delete_nodup (session <$> inflight st) i (session t)); [|exact N].
      now rewrite list_lookup_fmap, Hi. }
    split; [exact Hfl|]. split.
    + unfold turnsOfObject. now rewrite filter_absent.
    + destruct (lookup_lt_is_Some_2 (heap st') (session t)) as [s Hs].
      { rewrite Hlen. apply B. now apply list_elem_of_lookup_2 in Hi. }
      exists s. split; [exact Hs|].
      destruct (isProcessing s) eqn:E; [|reflexivity].
      now apply (F' _ _ Hs) in E.
  - intros ws o s now env Hc Ho Hfree st'. subst st'.
    cbn [step]. unfold handleCompleteAudioStart, sessionOf.
    rewrite Hc, Ho, Hfree.
    rewrite setProcessing_inflight, !sendMessage_inflight, setProcessing_inflight.
    split; [reflexivity|].
    pose proof (setProcessing_same st o true s Ho) as H1.
    rewrite <- (sendMessage_heap _ ws (ProcessingResponse "Processing your audio...")) in H1.
    rewrite <- (sendMessage_heap _ ws
                  (ErrorResponse "Failed to process audio"
                                 (Some (details bufferFromError)) now)) in H1.
    eexists. split; [exact (setProcessing_same _ o false _ H1) | reflexivity].
  - intros o. unfold turnsOfObject. now apply filter_nodup.
Qed.

End GatewayClaims.

(** The claim C1 fails for the sessions of the orchestrator.  A client
    sends [init], [audio], [init] again and [audio] again before the first
    turn has settled: the second [init] gives the socket a fresh
    [ClientSession] object whose flag is clear, and two turns are in
    flight for the session [u1-f1], on one socket.  The same happens when
    two sockets are initialised for the same user and friend. *)
Lemma two_turns_in_flight_for_one_session :
  let env := Sample.healthy "hello" "Hi there. How are you?" in
  let init ws := Gateway.Receive ws (Gateway.Parsed (Gateway.InitMessage "u1" "f1")) 0 env in
  let audio ws :=
    Gateway.Receive ws (Gateway.Parsed (Gateway.AudioMessage (Some (Sample.clip 1000))))
                    0 env in
  let again :=
    Gateway.run Conversation.processCompleteAudio
      [Gateway.Connect 1; init 1; audio 1; init 1; audio 1] Gateway.initial in
  let twice :=
    Gateway.run Conversation.processCompleteAudio
      [Gateway.Connect 1; Gateway.Connect 2; init 1; init 2; audio 1; audio 2]
      Gateway.initial in
  Gateway.reachable Conversation.processCompleteAudio again
  /\ Gateway.turnsOfSession "u1-f1" again = 2
  /\ Gateway.turnsOfSocket 1 again = 2
  /\ Gateway.reachable Conversation.processCompleteAudio twice
  /\ Gateway.turnsOfSession "u1-f1" twice = 2.
Proof.
  cbv zeta.
  split; [apply run_reachable; constructor|].
  split; [vm_compute; reflexivity|].
  split; [vm_compute; reflexivity|].
  split; [apply run_reachable; constructor|].
  vm_compute; reflexivity.
Qed.

(** * Worked instances

    The theorems above, applied to a conversation in which user [u1]
    says "hello" to friend [f1] and the language model answers "Hi there.
    How are you?". *)

Section Instances.
Import Js Effects Logic Conversation.

Let env := Sample.healthy "hello" "Hi there. How are you?".
Let greeted := snd (initializeSession env "u1" "f1" emptyWorld).

Lemma context_bounded_after_completed_turn_witness :
  exists s',
    sessions (snd (processCompleteAudio env (Sample.clip 1000) "u1" "f1" greeted))
      !! "u1-f1" = Some s'
    /\ length (context s') <= 10
    /\ context s' = ["user: hello"; "ai: Hi there."].
Proof.
  destruct (context_bounded_after_completed_turn env (Sample.clip 1000)
              "u1" "f1" greeted
              {| response := "Hi there."; transcript := "hello";
                 audioBuffer := Some Sample.speech; error := None |})
    as (s' & H1 & H2 & H3 & _).
  - vm_compute. reflexivity.
  - reflexivity.
  - discriminate.
  - exists s'. split; [exact H1|]. split; [exact H2|].
    apply (H3 (mkSession "u1" "f1" [])).
    vm_compute. reflexivity.
Defined.

Lemma transcriber_failure_result_witness :
  let quota :=
    Sample.env (RejectedWith (mkThrown true (Some 8%Z) "RESOURCE_EXHAUSTED"))
               None None (Sample.replies 800 "Hi there. How are you?") in
  let out := processCompleteAudio quota (Sample.clip 1000) "u1" "f1" greeted in
  (exists audio,
      fst out = Returns {| response := errorMessage; transcript := "";
                           audioBuffer := audio;
                           error := Some "Google Cloud quota exceeded." |})
  /\ sessions (snd out) = sessions greeted.
Proof.
  intros quota out.
  destruct (transcriber_failure_result quota (Sample.clip 1000) "u1" "f1" greeted
              (Error "Google Cloud quota exceeded."))
    as (H1 & _ & _ & _ & H5).
  - vm_compute. reflexivity.
  - split; [exact H1|].
    apply (H5 (mkSession "u1" "f1" [])).
    vm_compute. reflexivity.
Defined.

Lemma short_audio_short_circuits_witness :
  (exists audio,
      fst (processCompleteAudio env (Sample.clip 16) "u1" "f1" greeted)
      = Returns {| response := didntCatch; transcript := "";
                   audioBuffer := audio; error := None |})
  /\ (exists audio,
        fst (processCompleteAudio env [] "u1" "f1" greeted)
        = Returns {| response := errorMessage; transcript := "";
                     audioBuffer := audio;
                     error := Some "Failed to transcribe audio" |}).
Proof.
  split.
  - destruct (short_audio_short_circuits env (Sample.clip 16) "u1" "f1" greeted)
      as [H _].
    destruct H as (_ & H & _); [|exact H].
    vm_compute. split; lia.
  - destruct (short_audio_short_circuits env [] "u1" "f1" greeted) as [_ H].
    apply H. reflexivity.
Defined.

Lemma initializeSession_reseeds_witness :
  lookupOrInitialize env "u1" "f1" greeted
  = (Returns (Some (mkSession "u1" "f1" [])), greeted).
Proof.
  destruct (initializeSession_reseeds env "u1" "f1" greeted) as (_ & _ & _ & _ & H).
  apply H. vm_compute. reflexivity.
Defined.

Lemma recall_ignores_the_utterance_witness :
  In (CallQuery "u1" [] 5)
     (trace (snd (processCompleteAudio env (Sample.clip 1000) "u1" "f1" greeted))).
Proof.
  destruct (recall_ignores_the_utterance env (Sample.clip 1000) "u1" "f1" greeted)
    as [_ H].
  destruct (H {| response := "Hi there."; transcript := "hello";
                 audioBuffer := Some Sample.speech; error := None |})
    as [Q _].
  - vm_compute. reflexivity.
  - reflexivity.
  - discriminate.
  - exact Q.
Defined.

Import Gateway.

Let init := Receive 1 (Parsed (InitMessage "u1" "f1")) 0 env.
Let clip := Receive 1 (Parsed (AudioMessage (Some (Sample.clip 1000)))) 0 env.

Lemma audio_before_init_rejected_witness :
  let st := run processCompleteAudio [Connect 1] initial in
  sent (step processCompleteAudio clip st)
  = [(1, ErrorResponse "Session not initialized. Please send init message first."
                       None 0)]
  /\ inflight (step processCompleteAudio clip st) = [].
Proof.
  intros st.
  destruct (audio_before_init_rejected processCompleteAudio st 1
              (Some (Sample.clip 1000)) 0%Z env)
    as (_ & H2 & _ & _ & H5).
  - vm_compute. reflexivity.
  - split; [|exact H2]. apply H5. vm_compute. set_solver.
Defined.

Lemma busy_flag_single_flight_witness :
  let st := run processCompleteAudio [Connect 1; init; clip] initial in
  step processCompleteAudio clip st
  = sendMessage st 1
      (ErrorResponse
         "Already processing audio. Please wait for current request to complete."
         None 0)
  /\ (exists s,
        heap (step processCompleteAudio (Complete 0 0 env) st) !! 0 = Some s
        /\ isProcessing s = false)
  /\ turnsOfObject 0 st <= 1.
Proof.
  intros st.
  destruct (busy_flag_single_flight processCompleteAudio st)
    as (H1 & H2 & _ & H4).
  - apply run_reachable. constructor.
  - split; [|split].
    + apply (H1 1 0 (mkClient "u1" "f1" (Some "u1-f1") true)
                (Some (Sample.clip 1000)) 0%Z env);
        vm_compute; reflexivity.
    + apply (H2 0 (mkTurn 1 0 (Sample.clip 1000) "u1" "f1") 0%Z env).
      vm_compute. reflexivity.
    + apply H4.
Defined.

End Instances.

(** * Further properties of the code *)

(** ** Strings: splitting, joining, trimming, keys *)

Section MoreStrings.
Import Js Summary.

Lemma concat_cons_head sep a x rest :
  String.concat sep (String a x :: rest) = String a (String.concat sep (x :: rest)).
Proof. destruct rest; reflexivity. Qed.

Lemma concat_cons_cons sep y x rest :
  String.concat sep (y :: x :: rest) = y +:+ sep +:+ String.concat sep (x :: rest).
Proof. reflexivity. Qed.

(** Joining what [split] returns with the separator gives the string
    back. *)
Lemma join_split c s : join (String c "") (split c s) = s.
Proof.
  unfold join. induction s as [|a s IH]; [reflexivity|].
  cbn [split]. destruct (Ascii.eqb_spec a c) as [->|Hne].
  - destruct (split c s) as [|x rest] eqn:E; [now apply split_not_nil in E|].
    rewrite concat_cons_cons, IH. reflexivity.
  - destruct (split c s) as [|x rest] eqn:E; [now apply split_not_nil in E|].
    rewrite concat_cons_head, IH. reflexivity.
Qed.

Lemma append_assoc (s t u : string) : (s +:+ t) +:+ u = s +:+ t +:+ u.
Proof. induction s as [|a s IH]; [reflexivity|]. rewrite !append_cons. now f_equal. Qed.

(** The join of the first [n] words is a prefix of the join of all. *)
Lemma join_take_prefix sep (words : list string) n :
  exists rest, join sep words = join sep (take n words) +:+ rest.
Proof.
  unfold join. revert n. induction words as [|x words IH]; intros n.
  - exists "". now destruct n.
  - destruct n as [|n]; [now eexists|].
    cbn [take]. destruct (IH n) as [rest Hrest].
    destruct words as [|y words].
    + exists "". rewrite take_nil. cbn. clear.
      induction x as [|a x IHx]; [reflexivity|]. rewrite append_cons. now f_equal.
    + destruct n as [|n].
      * rewrite concat_cons_cons. cbn [take String.concat]. now eexists.
      * cbn [take] in *. rewrite !concat_cons_cons.
        exists rest. rewrite Hrest. now rewrite !append_assoc.
Qed.

Lemma take_all_seq {A} (l : list A) i :
  i = pred (length l) -> l <> [] -> take (S i) l = l.
Proof.
  intros -> Hne. apply take_ge. destruct l; [contradiction | cbn; lia].
Qed.

(** *** [trim] *)

Lemma trimStart_startsClean s : startsClean (trimStart s) = true.
Proof.
  induction s as [|a s IH]; [reflexivity|].
  cbn [trimStart]. destruct (isWhiteSpace a) eqn:E; [exact IH|].
  cbn. now rewrite E.
Qed.

Lemma trimEnd_startsClean s : startsClean s = true -> startsClean (trimEnd s) = true.
Proof.
  destruct s as [|a s]; [reflexivity|]. cbn [startsClean trimEnd].
  intros Ha. destruct (trimEnd s); [|cbn; exact Ha].
  destruct (isWhiteSpace a) eqn:Ea; [discriminate | cbn; now rewrite Ea].
Qed.

Lemma trimStart_clean s : startsClean s = true -> trimStart s = s.
Proof.
  destruct s as [|a s]; [reflexivity|]. cbn.
  now destruct (isWhiteSpace a).
Qed.

Lemma trimEnd_cons a s :
  trimEnd (String a s) =
    match trimEnd s with
    | EmptyString => if isWhiteSpace a then EmptyString else String a EmptyString
    | t => String a t
    end.
Proof. reflexivity. Qed.

Lemma trimEnd_idempotent s : trimEnd (trimEnd s) = trimEnd s.
Proof.
  induction s as [|a s IH]; [reflexivity|].
  rewrite trimEnd_cons. destruct (trimEnd s) as [|b t] eqn:E.
  - destruct (isWhiteSpace a) eqn:Ea; [reflexivity|].
    cbn. now rewrite Ea.
  - rewrite trimEnd_cons, IH. reflexivity.
Qed.

(** Trimming a trimmed string changes nothing. *)
Lemma trim_idempotent s : trim (trim s) = trim s.
Proof.
  unfold trim.
  rewrite (trimStart_clean (trimEnd (trimStart s))).
  - apply trimEnd_idempotent.
  - apply trimEnd_startsClean, trimStart_startsClean.
Qed.

(** *** Keys built with a separator *)

Lemma separated_inj c p1 p2 s1 s2 :
  includes c p1 = false -> includes c p2 = false ->
  p1 +:+ String c s1 = p2 +:+ String c s2 -> p1 = p2 /\ s1 = s2.
Proof.
  revert p2. induction p1 as [|a p1 IH]; intros [|b p2] H1 H2 E.
  - injection E as <-. now split.
  - rewrite append_empty, append_cons in E. injection E as <- _.
    cbn in H2. now rewrite Ascii.eqb_refl in H2.
  - rewrite append_empty, append_cons in E. injection E as -> _.
    cbn in H1. now rewrite Ascii.eqb_refl in H1.
  - rewrite !append_cons in E. injection E as <- E.
    cbn [includes] in H1, H2.
    destruct (Ascii.eqb a c); [discriminate|].
    destruct (IH p2 H1 H2 E) as [-> ->]. now split.
Qed.

End MoreStrings.

(** ** Keys *)

Section Keys.
Import Js Effects Logic Conversation.

(** X1.  Two pairs of identifiers share a session key only when they are the
    same pair, provided the user identifiers have no hyphen. *)
Theorem sessionKey_injective u1 f1 u2 f2 :
  includes "-" u1 = false -> includes "-" u2 = false ->
  sessionKey u1 f1 = sessionKey u2 f2 -> u1 = u2 /\ f1 = f2.
Proof. intros H1 H2 E. exact (separated_inj "-" u1 u2 f1 f2 H1 H2 E). Qed.

(** X2.  With a hyphen in a user identifier two pairs can share a key: the
    pairs ([u-m], [f]) and ([u], [m-f]) do, so that a turn of user [u]
    with friend [m-f] finds and uses the session initialised for user
    [u-m] with friend [f]. *)
Theorem sessionKey_collision env env' u m f w :
  let w1 := snd (initializeSession env (u +:+ "-" +:+ m) f w) in
  sessionKey (u +:+ "-" +:+ m) f = sessionKey u (m +:+ "-" +:+ f)
  /\ fst (lookupOrInitialize env' u (m +:+ "-" +:+ f) w1)
     = Returns (Some {| userId := u +:+ "-" +:+ m; friendId := f;
                        context := seededContext env (u +:+ "-" +:+ m) w |}).
Proof.
  intros w1.
  assert (K : sessionKey (u +:+ "-" +:+ m) f = sessionKey u (m +:+ "-" +:+ f)).
  { unfold sessionKey. now rewrite !append_assoc. }
  split; [exact K|].
  erewrite lookupOrInitialize_existing; [reflexivity|].
  subst w1. rewrite initializeSession_outcome. cbn [snd sessions].
  rewrite <- K. apply lookup_insert_eq.
Qed.

(** X3.  Cache keys of different kinds never coincide: with prefixes free of
    colons, equal keys come from equal prefixes and equal identifiers. *)
Theorem getCacheKey_injective p1 i1 p2 i2 :
  includes ":" p1 = false -> includes ":" p2 = false ->
  RedisCache.getCacheKey p1 i1 = RedisCache.getCacheKey p2 i2 ->
  p1 = p2 /\ i1 = i2.
Proof. intros H1 H2 E. exact (separated_inj ":" p1 p2 i1 i2 H1 H2 E). Qed.

End Keys.

(** ** The transcriber *)

Section Transcriber.
Import Js Effects Logic Summary Conversation.

(** X4.  [transcribeAudio] leaves the session map and the chat log alone and
    calls the recogniser once when the clip has at least 1000 bytes,
    never otherwise. *)
Theorem transcribeAudio_calls env audioBuffer w :
  snd (Stt.transcribeAudio env audioBuffer w) =
    if Stt.minimumBytes <=? length audioBuffer
    then {| sessions := sessions w; chats := chats w;
            trace := trace w ++ [CallRecognize audioBuffer] |}
    else w.
Proof.
  unfold Stt.transcribeAudio, tryCatch, bind, record, await, ret, throw.
  destruct (Nat.eqb_spec (length audioBuffer) 0) as [E0|E0].
  { rewrite E0. reflexivity. }
  destruct (Nat.ltb_spec (length audioBuffer) Stt.minimumBytes) as [Hlt|Hge].
  { destruct (Nat.leb_spec Stt.minimumBytes (length audioBuffer)); [lia|reflexivity]. }
  destruct (Nat.leb_spec Stt.minimumBytes (length audioBuffer)) as [_|?]; [|lia].
  cbn. destruct (recognize env audioBuffer) as [[[|r rs]|]|e]; try reflexivity.
  cbn. destruct (code e) as [c|]; [|reflexivity].
  destruct (c =? 16)%Z; [reflexivity|].
  destruct (c =? 3)%Z; [reflexivity|].
  destruct (c =? 8)%Z; reflexivity.
Qed.

(** X5.  A transcript returned by [transcribeAudio] is trimmed, so that the
    pipeline takes it for "no transcript" exactly when it is the empty
    string. *)
Theorem transcript_is_trimmed env audioBuffer w t :
  fst (Stt.transcribeAudio env audioBuffer w) = Returns t ->
  trim t = t /\ (noTranscript t = true <-> t = "").
Proof.
  intros H.
  assert (Ht : trim t = t).
  { revert H.
    unfold Stt.transcribeAudio, tryCatch, bind, record, await, ret, throw.
    destruct (length audioBuffer =? 0); [discriminate|].
    destruct (length audioBuffer <? Stt.minimumBytes); [now intros [= <-]|].
    cbn. destruct (recognize env audioBuffer) as [[[|r rs]|]|e].
    - now intros [= <-].
    - cbn. intros [= <-]. apply trim_idempotent.
    - now intros [= <-].
    - cbn. destruct (code e) as [c|]; [|discriminate].
      destruct (c =? 16)%Z; [discriminate|].
      destruct (c =? 3)%Z; [discriminate|].
      destruct (c =? 8)%Z; discriminate. }
  split; [exact Ht|].
  unfold noTranscript. rewrite Ht. destruct t; cbn; split; congruence.
Qed.

(** X6.  What [transcribeAudio] throws is never the provider's error itself:
    it is a fresh [Error] without code, whose message is one of four
    fixed sentences or "Google Cloud error: " followed by a non-empty
    text. *)
Theorem transcriber_errors_are_rewritten env audioBuffer w e :
  fst (Stt.transcribeAudio env audioBuffer w) = Throws e ->
  code e = None /\ instanceofError e = true
  /\ (In (Js.message e) transcriberMessages
      \/ exists m, truthy m = true /\ Js.message e = "Google Cloud error: " +:+ m).
Proof.
  unfold Stt.transcribeAudio, tryCatch, bind, record, await, ret, throw.
  destruct (length audioBuffer =? 0).
  { cbn. intros [= <-]. cbn. intuition. }
  destruct (length audioBuffer <? Stt.minimumBytes); [discriminate|].
  cbn. destruct (recognize env audioBuffer) as [[[|r rs]|]|e0]; try discriminate.
  cbn. destruct (code e0) as [c|].
  - destruct (c =? 16)%Z; [intros [= <-]; cbn; intuition|].
    destruct (c =? 3)%Z; [intros [= <-]; cbn; intuition|].
    destruct (c =? 8)%Z; [intros [= <-]; cbn; intuition|].
    intros [= <-]. cbn [code instanceofError Js.message Error].
    split; [reflexivity|]. split; [reflexivity|]. right.
    destruct (truthy (Js.message e0)) eqn:Em.
    + now exists (Js.message e0).
    + now exists "Unknown error".
  - intros [= <-]. cbn. intuition.
Qed.

End Transcriber.

(** ** Embeddings and generation *)

Section Embeddings.
Import Js Effects Logic Summary Conversation.

Lemma substring_length n m s : String.length (substring n m s) <= m.
Proof.
  revert n m. induction s as [|a s IH]; intros n m.
  - destruct n, m; cbn; lia.
  - destruct n as [|n].
    + destruct m as [|m]; [cbn; lia|]. cbn. specialize (IH 0 m). lia.
    + cbn. apply IH.
Qed.

Lemma getEmbedding_run env text w :
  GeminiM.getEmbedding env text w =
    (Returns (embeddingOf env text),
     if negb (truthy text) || (String.length (trim text) =? 0) then w
     else {| sessions := sessions w; chats := chats w;
             trace := trace w ++ [CallEmbedContent (substring 0 1000 text)] |}).
Proof.
  unfold GeminiM.getEmbedding, embeddingOf.
  destruct (negb (truthy text) || (String.length (trim text) =? 0)); [reflexivity|].
  unfold tryCatch, bind, record, await, ret, throw. cbn.
  now destruct (embedContent env (substring 0 1000 text)).
Qed.

(** X7.  [getEmbedding] never throws.  For a blank text it returns the empty
    vector without calling the provider; otherwise it makes one call, on
    the first 1000 characters of the text at most, and returns the
    provider's vector or the empty vector when the provider fails. *)
Theorem getEmbedding_outcome env text w :
  let blank := negb (truthy text) || (String.length (trim text) =? 0) in
  let sent := substring 0 1000 text in
  GeminiM.getEmbedding env text w =
    (Returns (embeddingOf env text),
     if blank then w
     else {| sessions := sessions w; chats := chats w;
             trace := trace w ++ [CallEmbedContent sent] |})
  /\ String.length sent <= 1000
  /\ (blank = true -> embeddingOf env text = [])
  /\ (forall v, blank = false -> embedContent env sent = Fulfilled v ->
        embeddingOf env text = v)
  /\ (forall e, embedContent env sent = RejectedWith e -> embeddingOf env text = []).
Proof.
  intros blank sent. subst blank sent.
  split; [apply getEmbedding_run|].
  split; [apply substring_length|].
  unfold embeddingOf. split; [|split].
  - now intros ->.
  - now intros v -> ->.
  - intros e ->. now destruct (negb (truthy text) || _).
Qed.

Lemma all_getEmbedding env texts w :
  fst (GeminiBatch.all (GeminiM.getEmbedding env) texts w)
  = Returns (map (embeddingOf env) texts).
Proof.
  revert w. induction texts as [|t texts IH]; intros w; [reflexivity|].
  cbn [GeminiBatch.all]. rewrite bind_unfold.
  rewrite (getEmbedding_run env t w).
  rewrite bind_unfold.
  match goal with |- context [GeminiBatch.all _ texts ?w'] =>
    specialize (IH w'); destruct (GeminiBatch.all _ texts w') as [c w''] end.
  cbn [fst] in IH. subst c. reflexivity.
Qed.

Lemma batches_outcome env texts rounds i acc w :
  length texts - i <= rounds ->
  fst (GeminiBatch.batches rounds env texts i acc w)
  = Returns (acc ++ map (embeddingOf env) (drop i texts)).
Proof.
  revert i acc w. induction rounds as [|rounds IH]; intros i acc w Hr.
  - cbn. rewrite drop_ge by lia. now rewrite app_nil_r.
  - cbn [GeminiBatch.batches].
    destruct (Nat.ltb_spec i (length texts)) as [Hlt|Hge].
    + rewrite bind_unfold. unfold tryCatch.
      pose proof (all_getEmbedding env (take GeminiBatch.batchSize (drop i texts)) w) as Ha.
      destruct (GeminiBatch.all _ _ w) as [c w']. cbn [fst] in Ha. subst c.
      rewrite IH by (unfold GeminiBatch.batchSize; lia).
      rewrite <- app_assoc, <- map_app.
      rewrite <- (drop_drop texts GeminiBatch.batchSize i).
      now rewrite firstn_skipn.
    + cbn. rewrite drop_ge by lia. now rewrite app_nil_r.
Qed.

(** X8.  [getBatchEmbeddings] returns one vector for each text, in the order
    of the texts, each being what [getEmbedding] returns for that text;
    it never throws. *)
Theorem getBatchEmbeddings_outcome env texts w :
  fst (GeminiBatch.getBatchEmbeddings env texts w)
  = Returns (map (embeddingOf env) texts).
Proof.
  unfold GeminiBatch.getBatchEmbeddings.
  rewrite batches_outcome by lia. reflexivity.
Qed.

(** *** The prompt *)

Lemma sliceLast_app_long {A} n (l1 l2 : list A) :
  n <= length l2 -> sliceLast n (l1 ++ l2) = sliceLast n l2.
Proof.
  intros H. unfold sliceLast. rewrite length_app.
  rewrite drop_app_ge by lia. f_equal. lia.
Qed.

Lemma onlyStrings_app l1 l2 :
  onlyStrings (l1 ++ l2) = onlyStrings l1 ++ onlyStrings l2.
Proof.
  induction l1 as [|v l1 IH]; [reflexivity|].
  destruct v; cbn; now rewrite ?IH.
Qed.

Lemma onlyStrings_strings l : onlyStrings (map MString l) = l.
Proof. induction l as [|x l IH]; [reflexivity|]. cbn. now rewrite IH. Qed.

Lemma enhance_app sessionContext longTermMemory transcript :
  enhance sessionContext longTermMemory transcript
  = sessionContext ++ onlyStrings longTermMemory ++ ["user: " +:+ transcript].
Proof.
  unfold enhance. now rewrite !onlyStrings_app, onlyStrings_strings.
Qed.

(** The reply depends on the last five entries of the context only. *)
Lemma generation_reads_last_five send random c1 c2 userMessage :
  sliceLast 5 c1 = sliceLast 5 c2 ->
  Gemini.generateResponse send random c1 userMessage
  = Gemini.generateResponse send random c2 userMessage.
Proof.
  intros H. unfold Gemini.generateResponse, Gemini.generateResponseRun,
    Gemini.fullPrompt. now rewrite H.
Qed.

(** X9.  In a turn the five entries are taken from the end of: session
    context, recalled memories, the user's line.  Once the memory store
    returns four snippets of text or more, nothing of the session's
    context reaches the language model: the reply is the same for any
    two session contexts. *)
Theorem memories_displace_the_context env userId c1 c2 transcript :
  4 <= length (onlyStrings (recall env userId)) ->
  reply env userId c1 transcript = reply env userId c2 transcript.
Proof.
  intros H. unfold reply. apply generation_reads_last_five.
  rewrite !enhance_app.
  rewrite (sliceLast_app_long 5 c1), (sliceLast_app_long 5 c2);
    [reflexivity|..]; rewrite length_app; cbn; lia.
Qed.

End Embeddings.

(** ** Streaming generation *)

Section Streaming.
Import Js GeminiStream.

Lemma chunksOf_last words :
  words <> [] -> last (chunksOf words) = Some (join " " words).
Proof.
  intros Hne. unfold chunksOf.
  destruct (length words) as [|k] eqn:E; [now destruct words|].
  rewrite seq_S, map_app. cbn [map plus]. rewrite last_snoc.
  f_equal. f_equal. apply take_ge. lia.
Qed.

Lemma chunksOf_prefixes words :
  Forall (fun c => exists rest, join " " words = c +:+ rest) (chunksOf words).
Proof.
  unfold chunksOf. apply List.Forall_forall. intros c Hc.
  apply in_map_iff in Hc as (i & <- & _). apply join_take_prefix.
Qed.

(** X10.  With a callback, [generateStreamingResponse] hands over one chunk
    for each word of the trimmed reply; every chunk is a prefix of the
    reply and the last one is the whole reply.  The function returns 50
    ms per chunk after the provider answered, and what it returns is the
    reply cut after its first period, which can be less than the
    callback was given.  Without a callback there are no chunks and no
    delay; when the provider fails there are no chunks and the fixed
    apology is returned. *)
Theorem streaming_chunks (context : list string) (userMessage : string)
    (ms : N) (text : string) (e : Thrown) :
  let answers := fun _ : string =>
    {| Gemini.settlesAfter := ms; Gemini.settlesAs := Fulfilled text |} in
  let fails := fun _ : string =>
    {| Gemini.settlesAfter := ms; Gemini.settlesAs := RejectedWith e |} in
  let r := generateStreamingResponse answers context userMessage true in
  let quiet := generateStreamingResponse answers context userMessage false in
  let failed := generateStreamingResponse fails context userMessage true in
  last (chunks r) = Some (trim text)
  /\ length (chunks r) = length (split " " (trim text))
  /\ Forall (fun c => exists rest, trim text = c +:+ rest) (chunks r)
  /\ streamedAfter r = (ms + 50 * N.of_nat (length (chunks r)))%N
  /\ streamed r = Spec.upToFirstPeriod (trim text)
  /\ chunks quiet = [] /\ streamedAfter quiet = ms /\ streamed quiet = streamed r
  /\ chunks failed = [] /\ streamed failed = failureText.
Proof.
  cbv zeta. unfold generateStreamingResponse.
  cbn [Gemini.settlesAs Gemini.settlesAfter chunks streamedAfter streamed].
  pose proof (join_split " " (trim text)) as J.
  repeat split.
  - rewrite chunksOf_last by apply split_not_nil. now rewrite J.
  - unfold chunksOf. now rewrite length_map, length_seq.
  - pose proof (chunksOf_prefixes (split " " (trim text))) as P.
    now rewrite J in P.
  - apply firstSentence_upToFirstPeriod.
  - cbn. lia.
Qed.

End Streaming.

(** ** Waiting for a video *)

Section Polling.
Import Js Effects Heygen.

Lemma pollFrom_bounds get remaining attempt requested waited :
  let p := pollFrom get remaining attempt requested waited in
  requests p <= requested + remaining
  /\ waits p <= waited + (requests p - requested)
  /\ requested <= requests p.
Proof.
  revert attempt requested waited.
  induction remaining as [|r IH]; intros attempt requested waited; cbn zeta.
  - cbn. lia.
  - cbn [pollFrom].
    pose proof (IH (S attempt) (S requested) waited) as I1.
    pose proof (IH (S attempt) (S requested) (S waited)) as I2.
    cbn zeta in I1, I2.
    destruct (get attempt) as [v|e].
    + destruct (String.eqb (status v) "completed"); [cbn; lia|].
      destruct (String.eqb (status v) "failed").
      * destruct (attempt =? maxAttempts - 1); [cbn; lia | lia].
      * lia.
    + destruct (attempt =? maxAttempts - 1); [cbn; lia | lia].
Qed.

(** X11.  [pollVideoStatus] makes at most 60 status requests and waits for the
    poll interval at most once per request. *)
Theorem pollVideoStatus_bounded get :
  requests (pollVideoStatus get) <= 60
  /\ waits (pollVideoStatus get) <= requests (pollVideoStatus get).
Proof.
  unfold pollVideoStatus.
  destruct (pollFrom_bounds get maxAttempts 0 0 0) as (H1 & H2 & _).
  assert (M : maxAttempts = 60) by reflexivity.
  split; lia.
Qed.

Lemma pollFrom_first_completed get k v :
  get k = Fulfilled v -> String.eqb (status v) "completed" = true ->
  forall remaining attempt requested waited,
    attempt <= k -> k < attempt + remaining -> attempt + remaining <= maxAttempts ->
    (forall j, attempt <= j < k -> goesOn get j) ->
    let p := pollFrom get remaining attempt requested waited in
    settled p = Returns (video_url v) /\ requests p = requested + (k - attempt) + 1.
Proof.
  intros Hk Hv. induction remaining as [|r IH];
    intros attempt requested waited Hle Hlt Hmax Hon; [lia|].
  cbn zeta. cbn [pollFrom].
  destruct (decide (attempt = k)) as [->|Hne].
  - rewrite Hk, Hv. cbn. split; [reflexivity | lia].
  - assert (Hg : goesOn get attempt) by (apply Hon; lia).
    assert (Hnl : (attempt =? maxAttempts - 1) = false).
    { apply Nat.eqb_neq. assert (M : maxAttempts = 60) by reflexivity. lia. }
    assert (Hnext : forall w',
               settled (pollFrom get r (S attempt) (S requested) w')
               = Returns (video_url v)
               /\ requests (pollFrom get r (S attempt) (S requested) w')
                  = requested + (k - attempt) + 1).
    { intros w'.
      destruct (IH (S attempt) (S requested) w') as [I1 I2]; try lia.
      - intros j Hj. apply Hon. lia.
      - split; [exact I1 | lia]. }
    unfold goesOn in Hg. destruct (get attempt) as [v'|e'].
    + rewrite Hg. destruct (String.eqb (status v') "failed").
      * rewrite Hnl. apply Hnext.
      * apply Hnext.
    + rewrite Hnl. apply Hnext.
Qed.

(** X12.  The first attempt that reports "completed" decides: its URL is
    returned, after one request per attempt, whatever the attempts before
    it reported, a "failed" status or a failed request included. *)
Theorem pollVideoStatus_first_completed get k v :
  k < 60 ->
  get k = Fulfilled v -> String.eqb (status v) "completed" = true ->
  (forall j, j < k -> goesOn get j) ->
  settled (pollVideoStatus get) = Returns (video_url v)
  /\ requests (pollVideoStatus get) = k + 1.
Proof.
  intros Hk Hg Hv Hon. unfold pollVideoStatus.
  assert (M : maxAttempts = 60) by reflexivity.
  destruct (pollFrom_first_completed get k v Hg Hv maxAttempts 0 0 0) as [H1 H2];
    try lia.
  - intros j Hj. apply Hon. lia.
  - split; [exact H1 | lia].
Qed.

Lemma pollFrom_pending get remaining attempt requested waited :
  (forall j, attempt <= j < attempt + remaining -> pending get j) ->
  pollFrom get remaining attempt requested waited =
    {| requests := requested + remaining; waits := waited + remaining;
       settled := Throws (Error "Video generation timed out") |}.
Proof.
  revert attempt requested waited.
  induction remaining as [|r IH]; intros attempt requested waited Hp.
  - cbn [pollFrom]. now rewrite !Nat.add_0_r.
  - cbn [pollFrom].
    assert (Ha : pending get attempt) by (apply Hp; lia).
    unfold pending in Ha. destruct (get attempt) as [v|e]; [|contradiction].
    destruct Ha as [-> ->].
    rewrite IH by (intros j Hj; apply Hp; lia).
    f_equal; lia.
Qed.

(** X13.  When every attempt finds the video still in the making, the function
    gives up with "Video generation timed out" after 60 requests and 60
    waits of the poll interval, five minutes in all. *)
Theorem pollVideoStatus_times_out get :
  (forall j, j < 60 -> pending get j) ->
  pollVideoStatus get =
    {| requests := 60; waits := 60;
       settled := Throws (Error "Video generation timed out") |}
  /\ (N.of_nat 60 * pollInterval = 300000)%N.
Proof.
  intros Hp. split; [|reflexivity].
  unfold pollVideoStatus.
  rewrite pollFrom_pending; [reflexivity|].
  intros j Hj. apply Hp. assert (M : maxAttempts = 60) by reflexivity. lia.
Qed.

Lemma pollFrom_to_last get remaining attempt requested waited :
  attempt + remaining = maxAttempts -> 1 <= remaining ->
  (forall j, attempt <= j < maxAttempts - 1 -> goesOn get j) ->
  exists waited',
    pollFrom get remaining attempt requested waited
    = pollFrom get 1 (maxAttempts - 1) (requested + (maxAttempts - 1 - attempt)) waited'.
Proof.
  assert (M : maxAttempts = 60) by reflexivity.
  revert attempt requested waited.
  induction remaining as [|r IH]; intros attempt requested waited Hsum Hr Hon; [lia|].
  destruct (decide (r = 0)) as [->|Hr0].
  - exists waited. replace attempt with (maxAttempts - 1) by lia.
    f_equal. lia.
  - assert (Hg : goesOn get attempt) by (apply Hon; lia).
    assert (Hnl : (attempt =? maxAttempts - 1) = false) by (apply Nat.eqb_neq; lia).
    assert (Hnext : forall w', exists waited',
               pollFrom get r (S attempt) (S requested) w'
               = pollFrom get 1 (maxAttempts - 1)
                   (requested + (maxAttempts - 1 - attempt)) waited').
    { intros w'. destruct (IH (S attempt) (S requested) w') as [w'' Hw'']; try lia.
      - intros j Hj. apply Hon. lia.
      - exists w''. rewrite Hw''. f_equal. lia. }
    cbn [pollFrom]. unfold goesOn in Hg. destruct (get attempt) as [v|e].
    + rewrite Hg. destruct (String.eqb (status v) "failed").
      * rewrite Hnl. apply Hnext.
      * apply Hnext.
    + rewrite Hnl. apply Hnext.
Qed.

(** X14.  A "failed" status or a failed request is final only at the last
    attempt: when none of the first 59 attempts reports "completed", the
    function settles as the 60th attempt tells, with that attempt's own
    error when it fails, and with the time-out when it is neither
    completed nor failed. *)
Theorem pollVideoStatus_last_attempt_decides get :
  (forall j, j < 59 -> goesOn get j) ->
  requests (pollVideoStatus get) = 60
  /\ settled (pollVideoStatus get) =
       match get 59 with
       | Fulfilled v =>
           if String.eqb (status v) "completed" then Returns (video_url v)
           else if String.eqb (status v) "failed" then Throws (failedError v)
           else Throws (Error "Video generation timed out")
       | RejectedWith e => Throws e
       end.
Proof.
  intros Hon. unfold pollVideoStatus.
  assert (M : maxAttempts = 60) by reflexivity.
  destruct (pollFrom_to_last get maxAttempts 0 0 0) as [w' ->]; try lia.
  { intros j Hj. apply Hon. lia. }
  replace (maxAttempts - 1) with 59 by lia.
  cbn [pollFrom]. replace (59 =? maxAttempts - 1) with true by (now rewrite M).
  destruct (get 59) as [v|e]; [|cbn; split; [lia | reflexivity]].
  destruct (String.eqb (status v) "completed"); [cbn; split; [lia | reflexivity]|].
  destruct (String.eqb (status v) "failed"); cbn; split; (lia || reflexivity).
Qed.

End Polling.

(** ** The short-term chat log *)

Section ChatLog.
Import Js Effects Logic Summary Conversation.

Lemma pushChat_chats env userId r message w :
  chats (snd (Redis.pushChat env userId r message w))
  = pushed env userId r message (chats w)
  /\ sessions (snd (Redis.pushChat env userId r message w)) = sessions w.
Proof.
  unfold Redis.pushChat, Redis.rpush, Redis.ltrim, pushed, Redis.listAt.
  unfold bind, record, failWhen, getWorld, setChats, ret, throw. cbn.
  destruct (rpushFails env _ _); cbn; [now split|].
  destruct (ltrimFails env _); cbn; [now split|].
  rewrite lookup_insert_eq. cbn. rewrite insert_insert_eq, range_last_100.
  now split.
Qed.

Lemma sliceLast_snoc_last {A} n (l : list A) x :
  0 < n -> last (sliceLast n (l ++ [x])) = Some x.
Proof.
  intros Hn. unfold sliceLast. rewrite length_app. cbn [length].
  replace (length l + 1 - n) with (length l - (n - 1)) by lia.
  rewrite drop_app_le by lia. apply last_snoc.
Qed.

Lemma pushChat_written env userId r message w :
  pushChatFault env userId r message = None ->
  chats (snd (Redis.pushChat env userId r message w))
  = <["chat:" +:+ userId :=
        sliceLast 100 (Redis.listAt ("chat:" +:+ userId) w
                       ++ [{| role := r; message := message |}])]> (chats w).
Proof.
  intros Hf.
  destruct (pushChat_chats env userId r message w) as [-> _].
  unfold pushed, pushChatFault in *.
  destruct (rpushFails env _ _); [discriminate|]. now rewrite Hf.
Qed.

(** X15.  A [pushChat] that succeeds leaves under the user's key the last 100
    entries of the former list extended with the new entry: the list
    ends with the new entry and has at most 100 entries; the lists of
    other users are untouched. *)
Theorem pushChat_keeps_last_100 env userId r message w :
  pushChatFault env userId r message = None ->
  let key := "chat:" +:+ userId in
  let entry := {| role := r; message := message |} in
  let w' := snd (Redis.pushChat env userId r message w) in
  fst (Redis.pushChat env userId r message w) = Returns tt
  /\ chats w' !! key = Some (sliceLast 100 (Redis.listAt key w ++ [entry]))
  /\ (exists l, chats w' !! key = Some l /\ length l <= 100 /\ last l = Some entry)
  /\ (forall k, k <> key -> chats w' !! k = chats w !! k).
Proof.
  intros Hf key entry w'. subst w'.
  rewrite pushChat_outcome, Hf, (pushChat_written _ _ _ _ _ Hf).
  fold key entry. rewrite lookup_insert_eq.
  repeat split.
  - eexists. split; [reflexivity|].
    split; [apply sliceLast_length | apply sliceLast_snoc_last; lia].
  - intros k Hk. now rewrite lookup_insert_ne.
Qed.

(** X16.  The two ways [pushChat] fails.  When RPUSH fails nothing is written.
    When RPUSH succeeds and LTRIM fails the entry is in the log, uncut,
    although [pushChat] rejects. *)
Theorem pushChat_failures env userId r message w e :
  let key := "chat:" +:+ userId in
  let entry := {| role := r; message := message |} in
  let out := Redis.pushChat env userId r message w in
  (rpushFails env key entry = Some e ->
     fst out = Throws e /\ chats (snd out) = chats w)
  /\ (rpushFails env key entry = None -> ltrimFails env key = Some e ->
        fst out = Throws e
        /\ chats (snd out) !! key = Some (Redis.listAt key w ++ [entry])).
Proof.
  intros key entry out. subst out.
  rewrite pushChat_outcome.
  destruct (pushChat_chats env userId r message w) as [-> _].
  unfold pushed, pushChatFault. fold key entry.
  split.
  - intros ->. now split.
  - intros -> ->. split; [reflexivity|]. now rewrite lookup_insert_eq.
Qed.

(** [getRecentChats] returns the user's whole list, the empty list for a
    user without one, and changes nothing. *)
Lemma getRecentChats_outcome env userId w :
  lrangeFails env ("chat:" +:+ userId) = None ->
  Redis.getRecentChats env userId w =
    (Returns (Redis.listAt ("chat:" +:+ userId) w),
     {| sessions := sessions w; chats := chats w;
        trace := trace w ++ [CallLrange ("chat:" +:+ userId) 0 (-1)] |}).
Proof.
  intros H. unfold Redis.getRecentChats, Redis.lrange.
  unfold bind, record, failWhen, getWorld, ret, throw. cbn. rewrite H. cbn.
  now rewrite range_all.
Qed.

(** X17.  What is pushed is read back: after a [pushChat] that succeeds,
    [getRecentChats] returns at most 100 entries of which the last is the
    entry just pushed, and a session initialised then has that entry's
    ["role: message"] line as the last item of its context. *)
Theorem pushChat_then_read env userId friendId r message w :
  pushChatFault env userId r message = None ->
  lrangeFails env ("chat:" +:+ userId) = None ->
  let entry := {| role := r; message := message |} in
  let w' := snd (Redis.pushChat env userId r message w) in
  (exists l,
      fst (Redis.getRecentChats env userId w') = Returns l
      /\ length l <= 100 /\ last l = Some entry)
  /\ (exists s,
        sessions (snd (initializeSession env userId friendId w'))
          !! sessionKey userId friendId = Some s
        /\ last (context s) = Some (formatChat entry)).
Proof.
  intros Hf Hr entry w'.
  set (l := sliceLast 100 (Redis.listAt ("chat:" +:+ userId) w ++ [entry])).
  assert (Hl : chats w' !! ("chat:" +:+ userId) = Some l).
  { subst w'. rewrite (pushChat_written _ _ _ _ _ Hf). apply lookup_insert_eq. }
  assert (Hlen : length l <= 100) by apply sliceLast_length.
  assert (Hlast : last l = Some entry) by (apply sliceLast_snoc_last; lia).
  clearbody l.
  assert (Hat : Redis.listAt ("chat:" +:+ userId) w' = l).
  { unfold Redis.listAt. now rewrite Hl. }
  split.
  - exists l. rewrite getRecentChats_outcome by exact Hr. cbn [fst].
    now rewrite Hat.
  - rewrite initializeSession_outcome. cbn [snd sessions].
    rewrite lookup_insert_eq. eexists. split; [reflexivity|].
    cbn [context]. unfold seededContext. rewrite Hr, Hat.
    clear -Hlast. induction l as [|x [|y l] IH]; [discriminate| |].
    + cbn in *. now injection Hlast as ->.
    + cbn [map]. rewrite !last_cons_cons in *. exact (IH Hlast).
Qed.

End ChatLog.

(** ** What a turn writes to the chat log, and the session it leaves *)

Section TurnLog.
Import Js Effects Logic Summary Conversation.

Lemma chatsAre_accepts c call : accepts (chatsAre c) call.
Proof. intros w Hw. exact Hw. Qed.

(** A step that maintains every invariant blind to the trace leaves the
    chat log alone. *)
Lemma keeps_chats {A} (m : M A) w :
  (forall I, (forall c, accepts I c) -> maintains I m) ->
  chats (snd (m w)) = chats w.
Proof.
  intros Hm. exact (Hm (chatsAre (chats w)) (chatsAre_accepts _) w eq_refl).
Qed.

(** From [E : m w = (c, w')], the fact [K : chats w' = chats w]. *)
Ltac quiet E K :=
  lazymatch type of E with
  | ?m ?w = _ =>
      let P := fresh in
      pose proof (keeps_chats m w) as K;
      lazymatch type of K with
      | ?prem -> _ =>
          assert (P : prem) by (intros ? ?; eauto with steps);
          specialize (K P); clear P
      end;
      rewrite E in K; cbn [snd] in K
  end.






Lemma turn_sessions env audioBuffer userId friendId w :
  let out := processCompleteAudio env audioBuffer userId friendId w in
  let w1 := snd (lookupOrInitialize env userId friendId w) in
  sessions (snd out) = sessions w1
  \/ exists s', sessions (snd out) = <[sessionKey userId friendId := s']> (sessions w1).
Proof.
  intros out w1.
  destruct (process_outcome env audioBuffer userId friendId w)
    as (s0 & w0 & El & H).
  subst w1. rewrite El. cbn [snd].
  cbv zeta in H. fold out in H.
  destruct (fst (Stt.transcribeAudio env audioBuffer w)) as [t|e].
  - destruct (noTranscript t); [left; apply H|].
    destruct (pushChatFault env userId user t) as [e|]; [left; apply H|].
    right. destruct H as (_ & K & _). eexists. exact K.
  - left. apply H.
Qed.


(** X19.  Whatever its outcome, a turn leaves a session under its key: the one
    it found, with its context updated when the turn completed, or one
    it seeded from the chat log when there was none. *)
Theorem turn_leaves_a_session env audioBuffer userId friendId w :
  let out := processCompleteAudio env audioBuffer userId friendId w in
  (exists s, sessions (snd out) !! sessionKey userId friendId = Some s)
  /\ (forall k, k <> sessionKey userId friendId ->
        sessions (snd out) !! k = sessions w !! k)
  /\ (sessions w !! sessionKey userId friendId = None ->
        fst (lookupOrInitialize env userId friendId w)
        = Returns (Some {| userId := userId; friendId := friendId;
                           context := seededContext env userId w |})).
Proof.
  intros out.
  destruct (lookupOrInitialize_outcome env userId friendId w)
    as (s1 & w1 & El1 & Hs1 & Hsame).
  assert (Hother : forall k, k <> sessionKey userId friendId ->
                     sessions w1 !! k = sessions w !! k).
  { intros k Hk.
    destruct (sessions w !! sessionKey userId friendId) as [s|] eqn:E.
    - destruct (Hsame s eq_refl) as [_ ->]. reflexivity.
    - rewrite (lookupOrInitialize_missing _ _ _ _ E), initializeSession_outcome in El1.
      injection El1 as _ <-. cbn [sessions]. now rewrite lookup_insert_ne. }
  pose proof (turn_sessions env audioBuffer userId friendId w) as Hcases.
  cbv zeta in Hcases. fold out in Hcases. rewrite El1 in Hcases. cbn [snd] in Hcases.
  split; [|split].
  - destruct Hcases as [->|[s' ->]]; [now exists s1|].
    exists s'. apply lookup_insert_eq.
  - intros k Hk. destruct Hcases as [->|[s' ->]]; [now apply Hother|].
    rewrite lookup_insert_ne by congruence. now apply Hother.
  - intros Hnone. now rewrite (lookupOrInitialize_missing _ _ _ _ Hnone).
Qed.

End TurnLog.

(** ** Inspecting and discarding sessions *)

Section SessionLife.
Import Js Effects Logic Summary Conversation ConversationInfo.

(** X20.  [getSessionInfo] and [cleanupSession] against [initializeSession]:
    after an initialisation the info reports the session with as many
    context items as the chat log has entries; after a clean-up it
    reports no session and no item.  The clean-up removes only the key
    it is given and does nothing for a key without session; the info
    changes nothing. *)
Theorem session_lifecycle env userId friendId w :
  let key := sessionKey userId friendId in
  let w1 := snd (initializeSession env userId friendId w) in
  let w2 := snd (cleanupSession userId friendId w1) in
  getSessionInfo userId friendId w1
  = (Returns {| infoSessionId := key; infoExists := true;
                contextItems := length (seededContext env userId w) |}, w1)
  /\ getSessionInfo userId friendId w2
     = (Returns {| infoSessionId := key; infoExists := false; contextItems := 0 |}, w2)
  /\ sessions w2 = delete key (sessions w)
  /\ (forall k, k <> key ->
        sessions (snd (cleanupSession userId friendId w)) !! k = sessions w !! k)
  /\ (sessions w !! key = None ->
        sessions (snd (cleanupSession userId friendId w)) = sessions w).
Proof.
  intros key w1 w2. subst w2 w1 key.
  rewrite initializeSession_outcome.
  unfold getSessionInfo, cleanupSession, bind, getWorld, setSessions, ret.
  cbn [fst snd sessions].
  rewrite lookup_insert_eq, lookup_delete_eq, delete_insert_eq.
  repeat split.
  - intros k Hk. now rewrite lookup_delete_ne.
  - intros Hn. now apply delete_id.
Qed.

End SessionLife.

(** ** The gateway: frames, initialisation, disconnection *)

Section GatewayMore.
Import Js Effects Logic Gateway Wire.

Variable pipeline : Env -> Buffer -> string -> string -> M Conversation.TurnResult.

Lemma writes_refl st : writes 0 st st.
Proof. split; [reflexivity|]. exists []. now rewrite app_nil_r. Qed.

Lemma writes_weaken n m st st' : n <= m -> writes n st st' -> writes m st st'.
Proof. intros Hnm (Ho & new & Hs & Hl & Hf). split; [exact Ho|]. exists new. repeat split; [exact Hs | lia | exact Hf]. Qed.

Lemma writes_trans n m st1 st2 st3 :
  writes n st1 st2 -> writes m st2 st3 -> writes (n + m) st1 st3.
Proof.
  intros (Ho1 & new1 & Hs1 & Hl1 & Hf1) (Ho2 & new2 & Hs2 & Hl2 & Hf2).
  split; [congruence|]. exists (new1 ++ new2). repeat split.
  - now rewrite Hs2, Hs1, app_assoc.
  - rewrite length_app. lia.
  - apply Forall_app. split; [exact Hf1|]. now rewrite <- Ho1.
Qed.

Lemma writes_same st st' :
  openSockets st' = openSockets st -> sent st' = sent st -> writes 0 st st'.
Proof. intros Ho Hs. split; [exact Ho|]. exists []. now rewrite app_nil_r. Qed.

Lemma writes_sendMessage st ws f : writes 1 st (sendMessage st ws f).
Proof.
  unfold sendMessage. destruct (decide (ws ∈ openSockets st)) as [Hin|Hout].
  - split; [reflexivity|]. exists [(ws, f)]. cbn. repeat split; [lia|].
    now constructor.
  - apply (writes_weaken 0); [lia | apply writes_refl].
Qed.

Lemma setProcessing_sent st o b : sent (setProcessing st o b) = sent st.
Proof. unfold setProcessing. now destruct (heap st !! o). Qed.

Lemma setProcessing_open st o b : openSockets (setProcessing st o b) = openSockets st.
Proof. unfold setProcessing. now destruct (heap st !! o). Qed.


Lemma writes_setProcessing st o b : writes 0 st (setProcessing st o b).
Proof. apply writes_same; [apply setProcessing_open | apply setProcessing_sent]. Qed.

Lemma writes_send_after st st' ws f :
  openSockets st' = openSockets st -> sent st' = sent st ->
  writes 1 st (sendMessage st' ws f).
Proof.
  intros Ho Hs.
  apply (writes_trans 0 1 st st'); [now apply writes_same | apply writes_sendMessage].
Qed.

Lemma writes_then_flag n st st' o b :
  writes n st st' -> writes n st (setProcessing st' o b).
Proof.
  intros W. replace n with (n + 0) by lia.
  apply (writes_trans n 0 st st'); [exact W | apply writes_setProcessing].
Qed.

(** X21.  A handler writes at most two frames, and only to sockets that are
    open: a frame for a socket that is not open is dropped.  Opening and
    closing a socket write nothing. *)
Theorem frames_go_to_open_sockets ev st :
  exists new,
    sent (step pipeline ev st) = sent st ++ new
    /\ length new <= 2
    /\ Forall (fun p => fst p ∈ openSockets st) new.
Proof.
  assert (H : forall n st', n <= 2 -> writes n st st' ->
              exists new, sent st' = sent st ++ new /\ length new <= 2
                          /\ Forall (fun p => fst p ∈ openSockets st) new).
  { intros n st' Hn (_ & new & Hs & Hl & Hf). exists new. repeat split; [exact Hs | lia | exact Hf]. }
  assert (H0 : forall st', sent st' = sent st ->
              exists new, sent st' = sent st ++ new /\ length new <= 2
                          /\ Forall (fun p => fst p ∈ openSockets st) new).
  { intros st' E. exists []. rewrite app_nil_r. repeat split; [exact E | cbn; lia | constructor]. }
  destruct ev as [ws|ws [e|[u f|data|ty]] now env|i now env|ws]; cbn [step].
  - now apply H0.
  - apply (H 1); [lia | apply writes_sendMessage].
  - unfold handleInit.
    destruct (negb (truthy u) || negb (truthy f));
      [apply (H 1); [lia | apply writes_sendMessage]|].
    destruct (Conversation.initializeSession env u f (world st)) as [[k|e] w];
      (apply (H 1); [lia | now apply writes_send_after]).
  - unfold handleCompleteAudioStart.
    destruct (sessionOf st ws) as [[o s]|];
      [|apply (H 1); [lia | apply writes_sendMessage]].
    destruct (isProcessing s);
      [apply (H 1); [lia | apply writes_sendMessage]|].
    assert (W1 : writes 1 st
                   (sendMessage (setProcessing st o true) ws
                      (ProcessingResponse "Processing your audio..."))).
    { apply writes_send_after; [apply setProcessing_open | apply setProcessing_sent]. }
    destruct data as [audioBuffer|].
    + apply (H 1); [lia|]. destruct W1 as (Ho & new & Hn). split; [exact Ho|]. now exists new.
    + apply (H (1 + 1)); [lia|]. apply writes_then_flag.
      apply (writes_trans 1 1 st _ _ W1). apply writes_sendMessage.
  - now apply H0.
  - unfold handleCompleteAudioResume.
    destruct (inflight st !! i) as [t|]; [|now apply H0].
    destruct (pipeline env _ _ _ _) as [[result|e] w].
    + apply (H 1); [lia|]. apply writes_then_flag.
      destruct (truthyError (Conversation.error result)); now apply writes_send_after.
    + apply (H 1); [lia|]. apply writes_then_flag. now apply writes_send_after.
  - now apply H0.
Qed.

End GatewayMore.

(** ** The gateway: an [init], the turns after it, and their frames *)

Section GatewayTurns.
Import Js Effects Logic Summary Conversation Gateway Wire.

Variable pipeline : Env -> Buffer -> string -> string -> M Conversation.TurnResult.




(** X23.  When the turn of a socket settles, the socket takes the next clip:
    the flag of the turn's [ClientSession] object, set while the turn
    was in flight, is clear again, and an [audio] message on the socket
    starts a turn on the same object, for the same identifiers. *)
Theorem completed_turn_frees_the_socket st i t env now buf now' env' :
  reachable pipeline st ->
  inflight st !! i = Some t ->
  clients st !! socket t = Some (session t) ->
  let st1 := step pipeline (Complete i now env) st in
  let st2 := step pipeline
               (Receive (socket t) (Parsed (AudioMessage (Some buf))) now' env') st1 in
  exists s,
    heap st !! session t = Some s
    /\ isProcessing s = true
    /\ heap st1 !! session t
       = Some {| userId := userId s; friendId := friendId s;
                 sessionId := sessionId s; isProcessing := false |}
    /\ inflight st2 = delete i (inflight st) ++
         [{| socket := socket t; session := session t; audio := buf;
             turnUserId := userId s; turnFriendId := friendId s |}].
Proof.
  intros Hr Hi Hc st1 st2.
  destruct (reachable_busyExactly pipeline st Hr) as (N & B & F).
  assert (Hin : t ∈ inflight st) by (now apply list_elem_of_lookup_2 in Hi).
  destruct (lookup_lt_is_Some_2 (heap st) (session t) (B t Hin)) as [s Hs].
  exists s. split; [exact Hs|]. split.
  { apply (F _ _ Hs). apply list_elem_of_fmap. now exists t. }
  assert (E1 : exists st0,
             st1 = setProcessing st0 (session t) false
             /\ heap st0 = heap st /\ clients st0 = clients st
             /\ inflight st0 = delete i (inflight st)).
  { subst st1. cbn [step]. unfold handleCompleteAudioResume. rewrite Hi.
    destruct (pipeline env _ _ _ _) as [[result|e] w].
    - eexists. split; [reflexivity|].
      destruct (truthyError (Conversation.error result));
        now rewrite sendMessage_heap, sendMessage_clients, sendMessage_inflight.
    - eexists. split; [reflexivity|].
      now rewrite sendMessage_heap, sendMessage_clients, sendMessage_inflight. }
  destruct E1 as (st0 & E1 & Hh & Hcl & Hfl).
  assert (H1 : heap st1 !! session t
               = Some {| userId := userId s; friendId := friendId s;
                         sessionId := sessionId s; isProcessing := false |}).
  { rewrite E1. apply setProcessing_same. now rewrite Hh. }
  split; [exact H1|].
  subst st2. cbn [step]. unfold handleCompleteAudioStart, sessionOf.
  rewrite E1 at 1. rewrite setProcessing_clients, Hcl, Hc, H1.
  cbn [isProcessing userId friendId inflight].
  rewrite sendMessage_inflight, setProcessing_inflight.
  now rewrite E1, setProcessing_inflight, Hfl.
Qed.



End GatewayTurns.

(** ** The gateway with the pipeline of the orchestrator *)

Section EndToEnd.
Import Js Effects Logic Summary Conversation Gateway Wire.



End EndToEnd.

(** ** Instances of the further properties *)

Section MoreInstances.
Import Js Effects Logic Summary Conversation ConversationInfo.

Let env := Sample.healthy "  hello " "Hi there. How are you?".
Let greeted := snd (initializeSession env "u1" "f1" emptyWorld).
Let down :=
  Sample.env (Sample.heard "hello") (Some (Error "Connection is closed.")) None
             (Sample.replies 800 "Hi there. How are you?").
Let quota :=
  Sample.env (RejectedWith (mkThrown true (Some 8%Z) "RESOURCE_EXHAUSTED"))
             None None (Sample.replies 800 "Hi there. How are you?").
Let remembering :=
  {| recognize := recognize env; rpushFails := rpushFails env;
     ltrimFails := ltrimFails env; lrangeFails := lrangeFails env;
     embedContent := embedContent env;
     query := fun _ _ =>
       Fulfilled (Some [MString "likes tea"; MString "has a dog";
                        MString "lives in Pune"; MString "plays chess"]);
     upsertFails := upsertFails env; chatSendMessage := chatSendMessage env;
     random := random env; synthesize := synthesize env |}.

Lemma sessionKey_injective_witness : "u1" = "u1" /\ "f-1" = "f-1".
Proof. apply (sessionKey_injective "u1" "f-1" "u1" "f-1"); reflexivity. Defined.

Lemma getCacheKey_injective_witness : "user" = "user" /\ "42" = "42".
Proof. apply (getCacheKey_injective "user" "42" "user" "42"); reflexivity. Defined.

Lemma transcript_is_trimmed_witness :
  trim "hello" = "hello" /\ (noTranscript "hello" = true <-> "hello" = "").
Proof.
  apply (transcript_is_trimmed env (Sample.clip 1000) emptyWorld "hello").
  vm_compute. reflexivity.
Defined.

Lemma transcriber_errors_are_rewritten_witness :
  code (Error "Google Cloud quota exceeded.") = None
  /\ instanceofError (Error "Google Cloud quota exceeded.") = true
  /\ (In (Js.message (Error "Google Cloud quota exceeded.")) transcriberMessages
      \/ exists m, truthy m = true
                   /\ Js.message (Error "Google Cloud quota exceeded.")
                      = "Google Cloud error: " +:+ m).
Proof.
  apply (transcriber_errors_are_rewritten quota (Sample.clip 1000) emptyWorld).
  vm_compute. reflexivity.
Defined.

Lemma getEmbedding_outcome_witness : embeddingOf env "   " = [].
Proof.
  destruct (getEmbedding_outcome env "   " emptyWorld) as (_ & _ & H & _ & _).
  apply H. reflexivity.
Defined.

Lemma memories_displace_the_context_witness :
  reply remembering "u1" ["user: my name is Asha"; "ai: Nice to meet you, Asha."] "hello"
  = reply remembering "u1" [] "hello".
Proof.
  apply (memories_displace_the_context remembering "u1"). vm_compute. lia.
Defined.

Lemma pollVideoStatus_first_completed_witness :
  let get := fun k =>
    match k with
    | 0 => Fulfilled (Heygen.mkStatus "failed" "" (Some "render error"))
    | 1 => RejectedWith (Error "socket hang up")
    | _ => Fulfilled (Heygen.mkStatus "completed" "https://files.heygen.ai/v/1.mp4" None)
    end in
  Heygen.settled (Heygen.pollVideoStatus get) = Returns "https://files.heygen.ai/v/1.mp4"
  /\ Heygen.requests (Heygen.pollVideoStatus get) = 3.
Proof.
  intros get.
  apply (pollVideoStatus_first_completed get 2
           (Heygen.mkStatus "completed" "https://files.heygen.ai/v/1.mp4" None)).
  - lia.
  - reflexivity.
  - reflexivity.
  - intros [|[|j]] Hj; [reflexivity | exact I | lia].
Defined.

Lemma pollVideoStatus_times_out_witness :
  let get := fun _ : nat => Fulfilled (Heygen.mkStatus "processing" "" None) in
  Heygen.pollVideoStatus get =
    {| Heygen.requests := 60; Heygen.waits := 60;
       Heygen.settled := Throws (Error "Video generation timed out") |}.
Proof.
  intros get.
  destruct (pollVideoStatus_times_out get) as [H _]; [|exact H].
  intros j _. split; reflexivity.
Defined.

Lemma pollVideoStatus_last_attempt_decides_witness :
  let get := fun _ : nat => Fulfilled (Heygen.mkStatus "failed" "" None) in
  Heygen.requests (Heygen.pollVideoStatus get) = 60
  /\ Heygen.settled (Heygen.pollVideoStatus get)
     = Throws (Error "Video generation failed: Unknown error").
Proof.
  intros get.
  destruct (pollVideoStatus_last_attempt_decides get) as [H1 H2].
  - intros j _. reflexivity.
  - split; [exact H1 | exact H2].
Defined.

Lemma pushChat_keeps_last_100_witness :
  exists l,
    chats (snd (Redis.pushChat env "u1" user "hello" greeted)) !! "chat:u1" = Some l
    /\ length l <= 100
    /\ last l = Some {| role := user; message := "hello" |}.
Proof.
  destruct (pushChat_keeps_last_100 env "u1" user "hello" greeted) as (_ & _ & H & _).
  - reflexivity.
  - exact H.
Defined.

Lemma pushChat_failures_witness :
  fst (Redis.pushChat down "u1" user "hello" greeted)
  = Throws (Error "Connection is closed.")
  /\ chats (snd (Redis.pushChat down "u1" user "hello" greeted)) = chats greeted.
Proof.
  destruct (pushChat_failures down "u1" user "hello" greeted
              (Error "Connection is closed.")) as [H _].
  apply H. reflexivity.
Defined.

Lemma pushChat_then_read_witness :
  exists s,
    sessions (snd (initializeSession env "u1" "f1"
                     (snd (Redis.pushChat env "u1" ai "Hi there." greeted))))
      !! sessionKey "u1" "f1" = Some s
    /\ last (context s) = Some "ai: Hi there.".
Proof.
  destruct (pushChat_then_read env "u1" "f1" ai "Hi there." greeted) as [_ H].
  - reflexivity.
  - reflexivity.
  - exact H.
Defined.

Lemma turn_leaves_a_session_witness :
  fst (lookupOrInitialize env "u2" "f1" greeted)
  = Returns (Some {| userId := "u2"; friendId := "f1";
                     context := seededContext env "u2" greeted |}).
Proof.
  destruct (turn_leaves_a_session env (Sample.clip 1000) "u2" "f1" greeted)
    as (_ & _ & H).
  apply H. vm_compute. reflexivity.
Defined.

Lemma session_lifecycle_witness :
  sessions (snd (cleanupSession "u9" "f1" greeted)) = sessions greeted.
Proof.
  destruct (session_lifecycle env "u9" "f1" greeted) as (_ & _ & _ & _ & H).
  apply H. vm_compute. reflexivity.
Defined.

Import Gateway.

Let init := Receive 1 (Parsed (InitMessage "u1" "f1")) 0 env.
Let clip := Receive 1 (Parsed (AudioMessage (Some (Sample.clip 1000)))) 0 env.
Let listening := run processCompleteAudio [Connect 1; init; clip] initial.
Let held := mkTurn 1 0 (Sample.clip 1000) "u1" "f1".


Lemma completed_turn_frees_the_socket_witness :
  exists s,
    heap listening !! 0 = Some s
    /\ isProcessing s = true
    /\ inflight
         (step processCompleteAudio clip
            (step processCompleteAudio (Complete 0 0 env) listening))
       = [mkTurn 1 0 (Sample.clip 1000) (Gateway.userId s) (Gateway.friendId s)].
Proof.
  destruct (completed_turn_frees_the_socket processCompleteAudio listening 0 held
              env 0%Z (Sample.clip 1000) 0%Z env)
    as (s & H1 & H2 & _ & H4).
  - apply run_reachable. constructor.
  - reflexivity.
  - vm_compute. reflexivity.
  - exists s. split; [exact H1|]. split; [exact H2 | exact H4].
Defined.



End MoreInstances.
